(** * Pelican director / origin control plane: override registry,
      object-availability handler, server listing and the director
      heartbeat watchdog.

    Shallow embedding of
      - [director] web API handlers ([ToInternalServerType], [listServers],
        [queryOrigins], [handleDisableServerToggle]);
      - [origin_ui] director-test endpoint ([resetDirectorTimeoutTimer],
        [directorTestResponse]) with the timeout loop it starts.

    Handlers write to a gin context; here a handler returns the list of
    effects it performs, in order, and the updated package-level state. *)

From Stdlib Require Import ZArith Ascii String List Bool Lia Floats.
From stdpp Require Import base gmap strings list fin_maps.

Local Open Scope Z_scope.
Local Open Scope string_scope.
Local Open Scope list_scope.

(** ** Go library functions used by the handlers *)

Module GoStrings.

(** [strings.HasSuffix(s, suffix)]. *)
Definition HasSuffix (s suffix : string) : bool :=
  let n := String.length s in
  let k := String.length suffix in
  (k <=? n)%nat && String.eqb (String.substring (n - k) k s) suffix.

(** ASCII lower-casing of one byte. *)
Definition lowerByte (c : ascii) : ascii :=
  let n := nat_of_ascii c in
  if ((65 <=? n) && (n <=? 90))%nat then ascii_of_nat (n + 32) else c.

(** [strings.EqualFold(s, t)] on ASCII input.  Go folds Unicode simple case;
    on the letters of the two server-type names the only other members of a
    fold orbit are the ASCII upper/lower forms, so byte-wise ASCII folding
    decides the comparisons made by [listServers]. *)
Fixpoint EqualFold (s t : string) : bool :=
  match s, t with
  | EmptyString, EmptyString => true
  | String a s', String b t' =>
      Ascii.eqb (lowerByte a) (lowerByte b) && EqualFold s' t'
  | _, _ => false
  end.

(** [strings.HasPrefix(s, prefix)]. *)
Definition HasPrefix (s prefix : string) : bool := String.prefix prefix s.

(** [strings.TrimPrefix(s, prefix)]: [s[len(prefix):]] when [s] starts with
    [prefix], else [s]. *)
Definition TrimPrefix (s prefix : string) : string :=
  if HasPrefix s prefix
  then String.substring (String.length prefix)
         (String.length s - String.length prefix) s
  else s.

End GoStrings.

Module GoPath.

Definition slash : ascii := "/"%char.
Definition dot : ascii := "."%char.

(** Whether the read position is at the end of a path element:
    [r == n || path[r] == '/']. *)
Definition atElemEnd (rest : list ascii) : bool :=
  match rest with
  | [] => true
  | c :: _ => Ascii.eqb c slash
  end.

(** The back-tracking loop of the [..] case, entered after the first
    [out.w--]:  [for out.w > dotdot && out.index(out.w) != '/' { out.w-- }].
    Returns the final write index. *)
Fixpoint backtrack (buf : list ascii) (dotdot w : nat) : nat :=
  match w with
  | O => O
  | S w' =>
      if (dotdot <? w)%nat && negb (Ascii.eqb (nth w buf slash) slash)
      then backtrack buf dotdot w'
      else w
  end.

(** The main loop [for r < n { switch ... }] of [path.Clean].  [rest] is
    [path[r:]], [buf] is the written part [out.buf[:out.w]] of the lazy
    buffer.  [inElem] is set while the inner copy loop of the "real path
    element" case is running ([for ; r < n && path[r] != '/'; r++]); that
    loop stops in front of a slash, which the next iteration of the main
    loop then skips. *)
Fixpoint cleanLoop (rooted inElem : bool) (rest buf : list ascii)
    (dotdot : nat) : list ascii :=
  match rest with
  | [] => buf
  | c :: rest' =>
      if inElem then
        if Ascii.eqb c slash then cleanLoop rooted false rest' buf dotdot
        else cleanLoop rooted true rest' (buf ++ [c]) dotdot
      else
        let element :=
          (* real path element: add slash if needed, then copy *)
          let buf1 :=
            if (rooted && negb (length buf =? 1)%nat)
               || (negb rooted && negb (length buf =? 0)%nat)
            then buf ++ [slash] else buf in
          cleanLoop rooted true rest' (buf1 ++ [c]) dotdot in
        if Ascii.eqb c slash then
          (* empty path element *)
          cleanLoop rooted false rest' buf dotdot
        else if Ascii.eqb c dot && atElemEnd rest' then
          (* . element *)
          cleanLoop rooted false rest' buf dotdot
        else
          match rest' with
          | c2 :: rest'' =>
              if Ascii.eqb c dot && Ascii.eqb c2 dot && atElemEnd rest'' then
                (* .. element: remove to last / *)
                if (dotdot <? length buf)%nat then
                  let w := backtrack buf dotdot (length buf - 1) in
                  cleanLoop rooted false rest'' (firstn w buf) dotdot
                else if negb rooted then
                  let buf1 :=
                    if (0 <? length buf)%nat then buf ++ [slash] else buf in
                  let buf2 := buf1 ++ [dot; dot] in
                  cleanLoop rooted false rest'' buf2 (length buf2)
                else cleanLoop rooted false rest'' buf dotdot
              else element
          | [] => element
          end
  end.

(** [path.Clean(path)]. *)
Definition Clean (path : string) : string :=
  match list_ascii_of_string path with
  | [] => "."
  | c :: tl =>
      let rooted := Ascii.eqb c slash in
      let out :=
        if rooted then cleanLoop true false tl [slash] 1
        else cleanLoop false false (c :: tl) [] 0 in
      match out with
      | [] => "."
      | _ => string_of_list_ascii out
      end
  end.

(** Invariant of the main loop, on the written part of the buffer: a slash
    in front of position [k] is the leading slash of a rooted path. *)
Definition endsOK (rooted : bool) (buf : list ascii) (k : nat) : Prop :=
  ∀ i : nat, k = S i → buf !! i = Some slash → rooted = true ∧ i = 0%nat.

Definition noDoubleSlash (buf : list ascii) : Prop :=
  ∀ i : nat, buf !! i = Some slash → buf !! S i ≠ Some slash.

Definition cleanInv (rooted : bool) (buf : list ascii) (dotdot : nat) : Prop :=
  (dotdot ≤ length buf)%nat
  ∧ endsOK rooted buf dotdot
  ∧ endsOK rooted buf (length buf)
  ∧ noDoubleSlash buf.

End GoPath.

(** ** Package [director]: web API *)

Module Director.

Import GoStrings GoPath.

(** Go [error] values seen by the handlers.  The three sentinels are
    compared by identity ([err == NoPrefixMatchError]); every other error is
    [otherError] with its text. *)
Inductive error : Type :=
| NoPrefixMatchError
| ParameterError
| InsufficientResError
| otherError (text : string).

#[global] Instance error_eq_dec : EqDecision error.
Proof. solve_decision. Defined.

(** Values of [disabledReason].  The three constants written by the toggle
    handler are [tempDisabled], [permDisabeld] (spelled as in the source) and
    [tempEnabled]; [reasonNone] and [reasonStatic] are the two derived
    reasons that [isServerDisabled] reports for a server without an entry. *)
Inductive disabledReason : Type :=
| reasonNone
| reasonStatic
| tempDisabled
| permDisabeld
| tempEnabled.

#[global] Instance disabledReason_eq_dec : EqDecision disabledReason.
Proof. solve_decision. Defined.

(** Operands of a formatted message, in the order they are handed to
    [fmt.Sprint] / string concatenation.  The texts of the sentinel errors
    and of the reason constants are declared outside the handlers, so a
    message keeps the value that is formatted rather than its rendering. *)
Inductive fragment : Type :=
| Text (s : string)
| ReasonVal (r : disabledReason)
| ErrorVal (e : error).

#[global] Instance fragment_eq_dec : EqDecision fragment.
Proof. solve_decision. Defined.

Definition message : Type := list fragment.

(** [err.Error()]: calling the method on a nil interface value panics. *)
Definition Error (err : option error) : option fragment :=
  match err with
  | None => None
  | Some e => Some (ErrorVal e)
  end.

(** [server_structs.SimpleApiResp]. *)
Inductive RespStatus : Type := RespOK | RespFailed.

Record SimpleApiResp : Type := {
  Status : RespStatus;
  Msg : message
}.

Definition ServerType : Type := string.

(** Modelled from the spec: the constants [server_structs.OriginType] and
    [server_structs.CacheType] are declared outside the handlers; section 3
    of the specification names the two types [Origin] and [Cache]. *)
Definition OriginType : ServerType := "Origin".
Definition CacheType : ServerType := "Cache".

(** Modelled from the spec: [HealthTestStatus] is declared outside the
    handlers; section 3 lists the values. *)
Inductive HealthTestStatus : Type :=
| HealthStatusUnknown
| HealthStatusOK
| HealthStatusWarning
| HealthStatusCritical.

Record healthTestUtil : Type := {
  util_Status : HealthTestStatus
}.

Record NamespaceAd : Type := {
  Path : string
}.

(** [server_structs.Advertisement] with the embedded [ServerAd]; a
    [url.URL] is kept in its rendered form, the zero URL being [""]. *)
Record ServerAd : Type := {
  Name : string;
  AuthURL : string;
  BrokerURL : string;
  URL : string;
  WebURL : string;
  Type_ : ServerType;
  Latitude : PrimFloat.float;
  Longitude : PrimFloat.float;
  Writes : bool;
  DirectReads : bool;
  Listings : bool
}.

Record Advertisement : Type := {
  ServerAd_ : ServerAd;
  NamespaceAds : list NamespaceAd
}.

Record patchServerRequest : Type := {
  Disabled : bool
}.

Record listServerRequest : Type := {
  ServerType_ : string
}.

Record listServerResponse : Type := {
  res_Name : string;
  res_AuthURL : string;
  res_BrokerURL : string;
  res_URL : string;
  res_WebURL : string;
  res_Type : ServerType;
  res_Latitude : PrimFloat.float;
  res_Longitude : PrimFloat.float;
  res_Writes : bool;
  res_DirectReads : bool;
  res_Listings : bool;
  res_Filtered : bool;
  res_FilteredType : disabledReason;
  res_Status : HealthTestStatus;
  res_NamespacePrefixes : list string
}.

(** [objectMetadata] is only passed through by the handler. *)
Record objectMetadata : Type := {
  meta_ServerAd : string;
  meta_ContentLength : Z
}.

Record statResponse : Type := {
  OK : bool;
  Message : message;
  Metadata : list objectMetadata
}.

Record statRequest : Type := {
  MinResponses : Z;
  MaxResponses : Z
}.

(** What a handler does to its gin context and collaborators, in order. *)
Inductive Body : Type :=
| SimpleBody (r : SimpleApiResp)
| ServersBody (l : list listServerResponse)
| StatBody (r : statResponse).

Inductive Effect : Type :=
| JSON (code : Z) (body : Body)
| QueryCall (path : string) (minimum maximum : Z)
| LogErrorf (path : string) (minimum maximum : Z) (err : error).

Definition StatusOK : Z := 200.
Definition StatusBadRequest : Z := 400.
Definition StatusNotFound : Z := 404.
Definition StatusInternalServerError : Z := 500.

(** Package-level state read and written by the handlers. *)
Record Globals : Type := {
  disabledServers : gmap string disabledReason;
  staticFilter : gset string;
  healthTestUtils : ServerAd -> option healthTestUtil;
  serverAds : list Advertisement
}.

Definition setDisabledServers (m : gmap string disabledReason) (g : Globals)
    : Globals :=
  {| disabledServers := m;
     staticFilter := staticFilter g;
     healthTestUtils := healthTestUtils g;
     serverAds := serverAds g |}.

(** Modelled from the spec: [isServerDisabled] is defined outside the
    handlers.  Section 3 (EffectiveAvailability): if an override entry
    exists, [tempEnabled] reports [disabled=false] and every other entry
    reports [disabled=true]; without an entry the static per-server
    configuration decides ([disabled=true, reason=static] if statically
    filtered, else [disabled=false, reason=none]). *)
Definition isServerDisabled (g : Globals) (serverName : string)
    : bool * disabledReason :=
  match disabledServers g !! serverName with
  | Some tempEnabled => (false, tempEnabled)
  | Some r => (true, r)
  | None =>
      if decide (serverName ∈ staticFilter g) then (true, reasonStatic)
      else (false, reasonNone)
  end.

(** Modelled from the spec: [listAdvertisement] is defined outside the
    handlers.  Section 6: [ListAdvertisements(types)] returns the current
    advertisements whose type is one of [types]. *)
Definition listAdvertisement (g : Globals) (serverTypes : list ServerType)
    : list Advertisement :=
  List.filter
    (fun ad => existsb (String.eqb (Type_ (ServerAd_ ad))) serverTypes)
    (serverAds g).

Definition ToInternalServerType (req : listServerRequest) : ServerType :=
  if String.eqb (ServerType_ req) "cache" then CacheType
  else if String.eqb (ServerType_ req) "origin" then OriginType
  else "".

(** Body of the [for _, server := range servers] loop of [listServers]. *)
Definition serverResponse (g : Globals) (server : Advertisement)
    : listServerResponse :=
  let ad := ServerAd_ server in
  let healthStatus :=
    match healthTestUtils g ad with
    | Some healthUtil => util_Status healthUtil
    | None => HealthStatusUnknown
    end in
  let '(disabled, ft) := isServerDisabled g (Name ad) in
  let auth_url :=
    if String.eqb (AuthURL ad) "" then URL ad else AuthURL ad in
  {| res_Name := Name ad;
     res_BrokerURL := BrokerURL ad;
     res_AuthURL := auth_url;
     res_URL := URL ad;
     res_WebURL := WebURL ad;
     res_Type := Type_ ad;
     res_Latitude := Latitude ad;
     res_Longitude := Longitude ad;
     res_Writes := Writes ad;
     res_DirectReads := DirectReads ad;
     res_Listings := Listings ad;
     res_Filtered := disabled;
     res_FilteredType := ft;
     res_Status := healthStatus;
     res_NamespacePrefixes := List.map Path (NamespaceAds server) |}.

(** [listServers]; [bind] is the result of [ctx.ShouldBindQuery]. *)
Definition listServers (bind : error + listServerRequest) (g : Globals)
    : list Effect :=
  match bind with
  | inl _ =>
      [JSON StatusBadRequest
         (SimpleBody {| Status := RespFailed;
                        Msg := [Text "Invalid query parameters"] |})]
  | inr queryParams =>
      let ok_servers :=
        if negb (String.eqb (ServerType_ queryParams) "") then
          if negb (EqualFold (ServerType_ queryParams) OriginType)
             && negb (EqualFold (ServerType_ queryParams) CacheType)
          then None
          else Some (listAdvertisement g [ToInternalServerType queryParams])
        else Some (listAdvertisement g [OriginType; CacheType]) in
      match ok_servers with
      | None =>
          [JSON StatusBadRequest
             (SimpleBody {| Status := RespFailed;
                            Msg := [Text "Invalid server type"] |})]
      | Some servers =>
          [JSON StatusOK (ServersBody (List.map (serverResponse g) servers))]
      end
  end.

(** How a handler invocation ends: it returns, or it panics (the gin
    recovery middleware is outside the handler). *)
Inductive Completion : Type := Returned | Panicked.

(** Result of [NewObjectStat().Query(...)]: [(meta, msg, err)]. *)
Definition QueryResult : Type :=
  (list objectMetadata * string * option error)%type.

Definition noObjectHint : string :=
  " If no object is available, please check if the object is in a public namespace.".

(** The statements of [queryOrigins] after the [if err != nil { ... }]
    block (the length check and the final success response). *)
Definition queryOriginsTail (meta : list objectMetadata) (msg : string)
    (err : option error) : list Effect * Completion :=
  let success :=
    JSON StatusOK
      (StatBody {| Message := [Text msg]; Metadata := meta; OK := true |}) in
  if (length meta <? 1)%nat then
    match Error err with
    | None => ([], Panicked)
    | Some text =>
        ([JSON StatusNotFound
            (SimpleBody {| Status := RespFailed;
                           Msg := [text; Text noObjectHint] |});
          success], Returned)
    end
  else ([success], Returned).

(** [queryOrigins].  [pathParam] is [ctx.Param("path")], [bind] the result
    of [ctx.ShouldBindQuery], [Query] the object-stat query the handler
    calls. *)
Definition queryOrigins (Query : string -> Z -> Z -> QueryResult)
    (pathParam : string) (bind : error + statRequest)
    : list Effect * Completion :=
  let path := Clean pathParam in
  if String.eqb path "" || HasSuffix path "/" then
    ([JSON StatusBadRequest
        (SimpleBody
           {| Status := RespFailed;
              Msg := [Text "Path should not be empty or ended with slash '/'"] |})],
     Returned)
  else
    match bind with
    | inl _ =>
        ([JSON StatusBadRequest
            (SimpleBody {| Status := RespFailed;
                           Msg := [Text "Invalid query parameters"] |})],
         Returned)
    | inr queryParams =>
        let minimum := MinResponses queryParams in
        let maximum := MaxResponses queryParams in
        let '(meta, msg, err) := Query path minimum maximum in
        let called := QueryCall path minimum maximum in
        match err with
        | Some e =>
            if decide (e = NoPrefixMatchError) then
              ([called;
                JSON StatusNotFound
                  (SimpleBody {| Status := RespFailed;
                                 Msg := [ErrorVal e] |})], Returned)
            else if decide (e = ParameterError) then
              ([called;
                JSON StatusBadRequest
                  (SimpleBody {| Status := RespFailed;
                                 Msg := [ErrorVal e] |})], Returned)
            else if decide (e = InsufficientResError) then
              (* Insufficient response does not cause a 500 error, but OK
                 field in response is false *)
              if (length meta <? 1)%nat then
                ([called;
                  JSON StatusNotFound
                    (SimpleBody {| Status := RespFailed;
                                   Msg := [Text msg; Text noObjectHint] |})],
                 Returned)
              else
                let soft :=
                  JSON StatusOK
                    (StatBody {| Message := [Text msg]; Metadata := meta;
                                 OK := false |}) in
                let '(rest, completion) := queryOriginsTail meta msg err in
                (called :: soft :: rest, completion)
            else
              ([called;
                LogErrorf path minimum maximum e;
                JSON StatusInternalServerError
                  (SimpleBody {| Status := RespFailed;
                                 Msg := [ErrorVal e] |})], Returned)
        | None =>
            let '(rest, completion) := queryOriginsTail meta msg err in
            (called :: rest, completion)
        end
    end.

(** [handleDisableServerToggle]: disable or enable an origin/cache server.
    [serverUrl] is [ctx.Query("serverUrl")], [bind] the result of
    [ctx.ShouldBindJSON]. *)
Definition handleDisableServerToggle (serverUrl : string)
    (bind : error + patchServerRequest) (g : Globals)
    : Globals * list Effect :=
  let failed (msg : message) :=
    (g, [JSON StatusBadRequest
           (SimpleBody {| Status := RespFailed; Msg := msg |})]) in
  if String.eqb serverUrl "" then
    failed [Text "'serverUrl' is a required query parameter"]
  else
    match bind with
    | inl err => failed [Text "Failed to bind reqeust body: "; ErrorVal err]
    | inr req =>
        (* You can't enable a server that's not disabled *)
        if negb (Disabled req)
           && negb (bool_decide (is_Some (disabledServers g !! serverUrl)))
        then
          failed
            [Text "Can't enable a server that is not disabled or does not exist"]
        else
          let '(isDisabled, reason) := isServerDisabled g serverUrl in
          if isDisabled && Disabled req then
            failed
              [Text "Can't disable a server that already has been disabled with reason: ";
               ReasonVal reason]
          else if negb isDisabled && negb (Disabled req) then
            failed
              [Text "Can't enable a server that already has been enabled with reason: ";
               ReasonVal reason]
          else
            let m := disabledServers g in
            let m' :=
              if Disabled req then
                (* If we previously temporarily allowed a server, we switch
                   to permFiltered (reset) *)
                if decide (reason = tempEnabled)
                then <[serverUrl := permDisabeld]> m
                else <[serverUrl := tempDisabled]> m
              else
                if decide (reason = tempDisabled) then
                  (* temporarily filtered server: remove it from the map *)
                  delete serverUrl m
                else if decide (reason = permDisabeld) then
                  (* server filtered from the config: temporarily allow *)
                  <[serverUrl := tempEnabled]> m
                else m in
            (setDisabledServers m' g,
             [JSON StatusOK
                (SimpleBody {| Status := RespOK; Msg := [Text "success"] |})])
    end.

(** *** The transition table of specification section 4.1

    The following three definitions follow the words of the specification,
    not the handler; the theorems compare the handler with them. *)

(** The four rows of the table (current effective state). *)
Inductive TableState : Type :=
| enabledNoOverride
| stateTempDisabled
| statePermDisabled
| stateTempEnabled.

#[global] Instance TableState_eq_dec : EqDecision TableState.
Proof. solve_decision. Defined.

(** The entries of the table. *)
Inductive TableResult : Type :=
| conflict
| becomes (r : disabledReason)
| entryRemoved.

Definition transitionTable (current : TableState) (disableRequested : bool)
    : TableResult :=
  match current, disableRequested with
  | enabledNoOverride, true => becomes tempDisabled
  | enabledNoOverride, false => conflict
  | stateTempDisabled, true => conflict
  | stateTempDisabled, false => entryRemoved
  | statePermDisabled, true => conflict
  | statePermDisabled, false => becomes tempEnabled
  | stateTempEnabled, true => becomes permDisabeld
  | stateTempEnabled, false => conflict
  end.

(** The row a server is in.  The row [permDisabled (static)] holds the
    server with an explicit [permDisabeld] entry and the statically filtered
    server that has no entry.  An entry holding a value that the handler
    never writes belongs to no row. *)
Definition currentState (g : Globals) (serverUrl : string)
    : option TableState :=
  match disabledServers g !! serverUrl with
  | None =>
      if decide (serverUrl ∈ staticFilter g) then Some statePermDisabled
      else Some enabledNoOverride
  | Some tempDisabled => Some stateTempDisabled
  | Some permDisabeld => Some statePermDisabled
  | Some tempEnabled => Some stateTempEnabled
  | Some _ => None
  end.


(** What a table entry means for the override map and the response. *)
Definition isFailure (effects : list Effect) : Prop :=
  ∃ msg, effects =
    [JSON StatusBadRequest (SimpleBody {| Status := RespFailed; Msg := msg |})].

Definition success : list Effect :=
  [JSON StatusOK (SimpleBody {| Status := RespOK; Msg := [Text "success"] |})].


(** A toggle request as the handler receives it. *)
Definition toggle (serverUrl : string) (disableRequested : bool) (g : Globals)
    : Globals * list Effect :=
  handleDisableServerToggle serverUrl
    (inr {| Disabled := disableRequested |}) g.

(** [n] rounds of disable followed by enable, with the responses. *)
Fixpoint toggleCycles (n : nat) (serverUrl : string) (g : Globals)
    : Globals * list Effect :=
  match n with
  | O => (g, [])
  | S n' =>
      let '(g1, r1) := toggle serverUrl true g in
      let '(g2, r2) := toggle serverUrl false g1 in
      let '(g3, rest) := toggleCycles n' serverUrl g2 in
      (g3, r1 ++ r2 ++ rest)
  end.

(** A message carries a reason when the reason is one of its operands. *)
Definition carriesReason (r : disabledReason) (msg : message) : Prop :=
  ReasonVal r ∈ msg.

(** The wording of the table's error for a server that is not disabled and
    has no override, whose current reason is [reasonNone]. *)
Definition notDisabledText : message :=
  [Text "Can't enable a server that is not disabled or does not exist"].

(** A conflict error carrying [reason], as the handler reports one: a single
    400 response with status failed whose message has the reason as an
    operand or, for [reasonNone], is the "not disabled" wording. *)
Definition ConflictError (reason : disabledReason) (effects : list Effect)
    : Prop :=
  ∃ msg,
    effects =
      [JSON StatusBadRequest
         (SimpleBody {| Status := RespFailed; Msg := msg |})]
    ∧ (carriesReason reason msg
       ∨ (reason = reasonNone ∧ msg = notDisabledText)).

(** *** Observations on handler results *)

(** The reasons the toggle handler writes into the override map. *)
Definition writtenReason (r : disabledReason) : Prop :=
  r = tempDisabled ∨ r = permDisabeld ∨ r = tempEnabled.

Definition writtenOnly (m : gmap string disabledReason) : Prop :=
  map_Forall (fun _ r => writtenReason r) m.

(** Status codes of the responses written, in order. *)
Definition responseCode (e : Effect) : option Z :=
  match e with
  | JSON code _ => Some code
  | _ => None
  end.

Definition responseCodes (effects : list Effect) : list Z :=
  omap responseCode effects.

(** Arguments of the calls to [Query], in order. *)
Definition queryCall (e : Effect) : option (string * Z * Z) :=
  match e with
  | QueryCall path minimum maximum => Some (path, minimum, maximum)
  | _ => None
  end.

Definition queryCalls (effects : list Effect) : list (string * Z * Z) :=
  omap queryCall effects.

(** The answer of [queryOrigins] to a path that fails its check. *)
Definition pathRejected : list Effect * Completion :=
  ([JSON StatusBadRequest
      (SimpleBody
         {| Status := RespFailed;
            Msg := [Text "Path should not be empty or ended with slash '/'"] |})],
   Returned).

(** The entries of a server listing, if the response is one. *)
Definition listed (effects : list Effect) : list listServerResponse :=
  match effects with
  | [JSON _ (ServersBody l)] => l
  | _ => []
  end.

End Director.

(** ** Package [origin_ui]: director test reports and their timeout *)

Module OriginUI.

Record DirectorTest : Type := {
  Status : string;
  Message : string;
  Timestamp : string
}.

(** Instants and durations are nanosecond counts, as [time.Duration]. *)
Definition Second : Z := 1000000000.

Definition directorTimeoutDuration : Z := 30 * Second.

(** Modelled from the spec: the health states of package [metrics], which
    is outside the origin API file; section 3 lists the values. *)
Inductive HealthStatus : Type :=
| StatusUnknown
| StatusOK
| StatusWarning
| StatusCritical.

#[global] Instance HealthStatus_eq_dec : EqDecision HealthStatus.
Proof. solve_decision. Defined.

(** What the code does to its collaborators, in order. *)
Inductive Event : Type :=
| TimerArmed (firesAt : Z)
| HealthSet (at_ : Z) (component : string) (status : HealthStatus)
    (msg : string)
| Warningln (msg : string)
| Errorln (msg : string)
| Infoln (msg : string)
| JSON (code : Z) (error : string).

#[global] Instance Event_eq_dec : EqDecision Event.
Proof. solve_decision. Defined.

(** A [time.Timer]: [deadline] is the instant at which an armed timer
    fires ([None] once it has fired or was stopped); [C] tells whether the
    one-slot channel [Timer.C] holds a value. *)
Record Timer : Type := {
  deadline : option Z;
  C : bool
}.

(** Package-level state, the watched health entry and the wall clock. *)
Record Globals : Type := {
  now : Z;
  directorTimeoutTimer : option Timer;
  timeoutLoop : bool;
  exitLoop : bool;
  componentHealth : gmap string (HealthStatus * string);
  events : list Event
}.

Definition emit (e : Event) (g : Globals) : Globals :=
  {| now := now g;
     directorTimeoutTimer := directorTimeoutTimer g;
     timeoutLoop := timeoutLoop g;
     exitLoop := exitLoop g;
     componentHealth := componentHealth g;
     events := events g ++ [e] |}.

Definition setTimer (t : option Timer) (g : Globals) : Globals :=
  {| now := now g;
     directorTimeoutTimer := t;
     timeoutLoop := timeoutLoop g;
     exitLoop := exitLoop g;
     componentHealth := componentHealth g;
     events := events g |}.

(** [time.NewTimer(d)] and [t.Reset(d)] arm the timer [d] from now. *)
Definition arm (c : bool) (g : Globals) : Globals :=
  let firesAt := now g + directorTimeoutDuration in
  emit (TimerArmed firesAt)
    (setTimer (Some {| deadline := Some firesAt; C := c |}) g).

(** Modelled from the spec: [metrics.SetComponentHealthStatus] is outside
    the origin API file.  It records status and message for the component
    (section 3, HealthStatus); a status name that is not a health state is
    an error and records nothing. *)
Definition parseStatus (state : string) : option HealthStatus :=
  if String.eqb state "ok" then Some StatusOK
  else if String.eqb state "warning" then Some StatusWarning
  else if String.eqb state "critical" then Some StatusCritical
  else if String.eqb state "unknown" then Some StatusUnknown
  else None.

Definition SetComponentHealthStatus (name state msg : string) (g : Globals)
    : Globals * option string :=
  match parseStatus state with
  | None => (g, Some ("unknown component status: " +:+ state))
  | Some h =>
      (emit (HealthSet (now g) name h msg)
         {| now := now g;
            directorTimeoutTimer := directorTimeoutTimer g;
            timeoutLoop := timeoutLoop g;
            exitLoop := exitLoop g;
            componentHealth := <[name := (h, msg)]> (componentHealth g);
            events := events g |},
       None)
  end.

Definition timeoutMessage : string :=
  "No director test report received within the time limit".

(** The [case <-directorTimeoutTimer.C] branch of the timeout loop, after
    the receive: the timer fired because no message was received in time. *)
Definition onTimerFired (g : Globals) : Globals :=
  let g1 := emit (Warningln timeoutMessage) g in
  let '(g2, err) :=
    SetComponentHealthStatus "director" "critical" timeoutMessage g1 in
  let g3 :=
    match err with
    | Some e =>
        emit (Errorln ("Failed to update director component health status: " +:+ e)) g2
    | None => g2
    end in
  (* Reset the timer for the next period. *)
  arm false g3.

(** One whole iteration of the goroutine started by
    [resetDirectorTimeoutTimer] ([for { select { ... } }]), run without any
    other goroutine in between: the receive from the timer's channel
    ([takeExpiry] below) followed by [onTimerFired].  [None] while neither
    channel is ready.  When both are ready Go picks either; the timer case
    is listed first here. *)
Definition timeoutLoopStep (g : Globals) : option Globals :=
  if negb (timeoutLoop g) then None
  else
    match directorTimeoutTimer g with
    | Some {| deadline := d; C := true |} =>
        Some (onTimerFired (setTimer (Some {| deadline := d; C := false |}) g))
    | _ =>
        if exitLoop g then
          Some (emit
                  (Infoln "Gracefully terminating the director-health test timeout loop...")
                  {| now := now g;
                     directorTimeoutTimer := directorTimeoutTimer g;
                     timeoutLoop := false;
                     exitLoop := exitLoop g;
                     componentHealth := componentHealth g;
                     events := events g |})
        else None
    end.

(** The Go runtime: the clock advances to [t]; an armed timer whose
    deadline has been reached fires once, placing a value in its channel. *)
Definition timePasses (t : Z) (g : Globals) : Globals :=
  if (t <? now g)%Z then g
  else
    let fired :=
      match directorTimeoutTimer g with
      | Some {| deadline := Some d; C := c |} =>
          if (d <=? t)%Z then Some {| deadline := None; C := true |}
          else Some {| deadline := Some d; C := c |}
      | other => other
      end in
    {| now := t;
       directorTimeoutTimer := fired;
       timeoutLoop := timeoutLoop g;
       exitLoop := exitLoop g;
       componentHealth := componentHealth g;
       events := events g |}.

(** [resetDirectorTimeoutTimer]: reset the timer safely.  [None] when the
    call waits on [<-directorTimeoutTimer.C] and the channel is empty. *)
Definition resetDirectorTimeoutTimer (g : Globals) : option Globals :=
  match directorTimeoutTimer g with
  | None =>
      (* NewTimer and start of the timeout loop *)
      Some (arm false
              {| now := now g;
                 directorTimeoutTimer := directorTimeoutTimer g;
                 timeoutLoop := true;
                 exitLoop := exitLoop g;
                 componentHealth := componentHealth g;
                 events := events g |})
  | Some {| deadline := Some _; C := c |} =>
      (* Stop() reports true: the timer was active *)
      Some (arm c g)
  | Some {| deadline := None; C := true |} =>
      (* Stop() reports false; drain the channel, then Reset *)
      Some (arm false g)
  | Some {| deadline := None; C := false |} => None
  end.

(** [directorTestResponse]; [bind] is the result of [ctx.ShouldBind]. *)
Definition directorTestResponse (bind : string + DirectorTest) (g : Globals)
    : option Globals :=
  match bind with
  | inl _ =>
      Some (emit (JSON 400 "Invalid director test response")
              (emit (Errorln "Invalid director test response") g))
  | inr dt =>
      (* We will let the timer go timeout if director didn't send a valid
         json request *)
      match resetDirectorTimeoutTimer g with
      | None => None
      | Some g1 =>
          let failure (e : string) (g : Globals) :=
            let text :=
              "Failed to update director component health status: " +:+ e in
            emit (JSON 500 text) (emit (Errorln text) g) in
          if String.eqb (Status dt) "ok" then
            let '(g2, err) :=
              SetComponentHealthStatus "director" "ok"
                ("Director timestamp: " +:+ Timestamp dt) g1 in
            match err with
            | Some e => Some (failure e g2)
            | None => Some g2
            end
          else if String.eqb (Status dt) "error" then
            let '(g2, err) :=
              SetComponentHealthStatus "director" "critical" (Message dt) g1 in
            match err with
            | Some e => Some (failure e g2)
            | None => Some g2
            end
          else
            let text :=
              "Invalid director test response status: " +:+ Status dt in
            Some (emit (JSON 400 text)
                    (emit (Errorln ("Invalid director test response, status: " +:+ Status dt)) g1))
      end
  end.

(** The part of [ConfigureOriginAPI] that concerns the watchdog: the
    initial health entry and the start of the timer. *)
Definition ConfigureOriginAPI (routerIsNil : bool) (g : Globals)
    : option Globals * option string :=
  if routerIsNil then
    (Some g, Some "Origin configuration passed a nil pointer")
  else
    let '(g1, err) :=
      SetComponentHealthStatus "director" "warning"
        "Initializing origin, unknown status for director" g in
    match err with
    | Some e => (Some g1, Some e)
    | None =>
        (* start the timer for the director test report timeout *)
        (resetDirectorTimeoutTimer g1, None)
    end.

(** A run without reports: the clock reaches the pending deadline and the
    timeout loop handles the expiry. *)
Definition nextExpiry (g : Globals) : option Globals :=
  match directorTimeoutTimer g with
  | Some {| deadline := Some d; C := _ |} => timeoutLoopStep (timePasses d g)
  | _ => None
  end.

Fixpoint silentRun (n : nat) (g : Globals) : option Globals :=
  match n with
  | O => Some g
  | S n' =>
      match nextExpiry g with
      | Some g' => silentRun n' g'
      | None => None
      end
  end.

(** The instants at which the watched component was marked critical. *)
Definition criticalAt (e : Event) : option Z :=
  match e with
  | HealthSet t component StatusCritical _ =>
      if String.eqb component "director" then Some t else None
  | _ => None
  end.

Definition criticalTimes (l : list Event) : list Z :=
  omap criticalAt l.

Definition boot : Globals :=
  {| now := 0;
     directorTimeoutTimer := None;
     timeoutLoop := false;
     exitLoop := false;
     componentHealth := ∅;
     events := [] |}.

(** A report that re-arms the timer moves the pending deadline. *)
Definition rearmed (g g' : Globals) : Prop :=
  (∃ c, directorTimeoutTimer g' =
          Some {| deadline := Some (now g + directorTimeoutDuration); C := c |})
  ∧ TimerArmed (now g + directorTimeoutDuration)
      ∈ drop (length (events g)) (events g').

(** Whether the status of a bound report is one of the two recognised. *)
Definition recognised (dt : DirectorTest) : bool :=
  String.eqb (Status dt) "ok" || String.eqb (Status dt) "error".

(** *** Bearer authorisation of the origin API *)

Inductive AuthEvent : Type :=
| TokenVerified (token : string)
| AuthWarningln (msg : string)
| AbortWithStatusJSON (code : Z) (error : string)
| Next.

#[global] Instance AuthEvent_eq_dec : EqDecision AuthEvent.
Proof. solve_decision. Defined.

(** [apiAuthHandler].  [authHeader] is the [Authorization] header ([""] when
    absent), [Verify] is [director.VerifyDirectorTestReportToken], returning
    [(valid, err)]. *)
Definition apiAuthHandler (Verify : string → bool * option string)
    (authHeader : string) : list AuthEvent :=
  (* Check if the Authorization header was provided *)
  if String.eqb authHeader "" then
    [AbortWithStatusJSON 401 "Authorization header is missing"]
  (* Check if the Authorization type is Bearer *)
  else if negb (GoStrings.HasPrefix authHeader "Bearer ") then
    [AbortWithStatusJSON 401 "Authorization header is not Bearer type"]
  else
    (* Extract the token from the Authorization header *)
    let token := GoStrings.TrimPrefix authHeader "Bearer " in
    let '(valid, err) := Verify token in
    match err with
    | Some e =>
        let text := "Error when verifying Bearer token: " +:+ e in
        [TokenVerified token; AuthWarningln text; AbortWithStatusJSON 401 text]
    | None =>
        if negb valid then
          [TokenVerified token;
           AuthWarningln "Can't validate Bearer token";
           AbortWithStatusJSON 401 "Can't validate Bearer token"]
        else [TokenVerified token; Next]
    end.

(** The route [POST /api/v1.0/origin-api/directorTest] registered by
    [ConfigureOriginAPI]: the group uses [apiAuthHandler], whose [ctx.Next()]
    runs [directorTestResponse]; an aborted context runs no further
    handler. *)
Definition directorTestRoute (Verify : string → bool * option string)
    (authHeader : string) (bind : string + DirectorTest) (g : Globals)
    : list AuthEvent * option Globals :=
  let auth := apiAuthHandler Verify authHeader in
  if decide (Next ∈ auth) then (auth, directorTestResponse bind g)
  else (auth, Some g).

(** The goroutine of [ConfigureOriginAPI] that waits for an exit signal:
    it closes [exitLoop], stops the timer and sets it to nil. *)
Definition onExitSignal (g : Globals) : Globals :=
  emit (Infoln "Gracefully stopping the director-health test timeout timer...")
    {| now := now g;
       directorTimeoutTimer := None;
       timeoutLoop := timeoutLoop g;
       exitLoop := true;
       componentHealth := componentHealth g;
       events := events g |}.

(** A run with reports: the clock advances to the instant of each report,
    the timeout loop handles an expiry that is pending by then, and the
    report is handled. *)
Fixpoint reportRun (reports : list (Z * DirectorTest)) (g : Globals)
    : option Globals :=
  match reports with
  | [] => Some g
  | (t, dt) :: rest =>
      let g1 := timePasses t g in
      let g2 := default g1 (timeoutLoopStep g1) in
      match directorTestResponse (inr dt) g2 with
      | Some g3 => reportRun rest g3
      | None => None
      end
  end.

(** Each report arrives before the deadline set by the one before it. *)
Fixpoint timely (since deadline_ : Z) (reports : list (Z * DirectorTest))
    : Prop :=
  match reports with
  | [] => True
  | (t, _) :: rest =>
      (since ≤ t)%Z ∧ (t < deadline_)%Z
      ∧ timely t (t + directorTimeoutDuration) rest
  end.

(** The receive [<-directorTimeoutTimer.C] of the timeout loop alone: the
    loop has taken the expiry from the channel and has not yet logged,
    updated the health entry or reset the timer. *)
Definition takeExpiry (g : Globals) : option Globals :=
  if negb (timeoutLoop g) then None
  else
    match directorTimeoutTimer g with
    | Some {| deadline := d; C := true |} =>
        Some (setTimer (Some {| deadline := d; C := false |}) g)
    | _ => None
    end.

(** The timer has fired and its expiry has been taken from the channel:
    the state between the receive of the timeout loop and its [Reset]. *)
Definition expiryTaken (g : Globals) : Prop :=
  directorTimeoutTimer g = Some {| deadline := None; C := false |}.

(** The watchdog is armed: the timer is pending for [d], its channel is
    empty, the timeout loop runs and no exit was signalled. *)
Definition armedFor (d : Z) (g : Globals) : Prop :=
  directorTimeoutTimer g = Some {| deadline := Some d; C := false |}
  ∧ (now g ≤ d)%Z
  ∧ timeoutLoop g = true
  ∧ exitLoop g = false.

End OriginUI.

(** ** Concrete states used to exercise the handlers *)

Module Examples.

Import Director.

Definition originUrl : string := "https://origin.example:8443".

Definition originAd : Advertisement :=
  {| ServerAd_ :=
       {| Name := "origin-1"; AuthURL := ""; BrokerURL := "";
          URL := originUrl; WebURL := "https://origin.example:8444";
          Type_ := OriginType; Latitude := PrimFloat.zero;
          Longitude := PrimFloat.zero; Writes := false;
          DirectReads := true; Listings := true |};
     NamespaceAds := [{| Path := "/ns" |}] |}.

Definition cacheAd : Advertisement :=
  {| ServerAd_ :=
       {| Name := "cache-1"; AuthURL := ""; BrokerURL := "";
          URL := "https://cache.example:8443"; WebURL := "";
          Type_ := CacheType; Latitude := PrimFloat.zero;
          Longitude := PrimFloat.zero; Writes := false;
          DirectReads := false; Listings := false |};
     NamespaceAds := [{| Path := "/ns" |}] |}.

(** A director that knows one origin and one cache, with the given
    override map and static filter. *)
Definition director (overrides : gmap string disabledReason)
    (static : gset string) : Globals :=
  {| disabledServers := overrides;
     staticFilter := static;
     healthTestUtils := fun _ => None;
     serverAds := [originAd; cacheAd] |}.

Definition oneObject : objectMetadata :=
  {| meta_ServerAd := originUrl; meta_ContentLength := 42 |}.

(** The origin right after [ConfigureOriginAPI], and ten seconds later. *)
Definition started : OriginUI.Globals :=
  match OriginUI.ConfigureOriginAPI false OriginUI.boot with
  | (Some g, None) => g
  | _ => OriginUI.boot
  end.

Definition tenSecondsIn : OriginUI.Globals :=
  OriginUI.timePasses (10 * OriginUI.Second) started.

End Examples.

(** * Properties *)

(** ** Override registry: [handleDisableServerToggle] *)

Section OverrideRegistry.

Import Director.

Implicit Types (g : Globals) (serverUrl : string).

Lemma setDisabledServers_same g :
  setDisabledServers (disabledServers g) g = g.
Proof. by destruct g. Qed.

Lemma serverUrl_nonempty serverUrl :
  serverUrl ≠ "" → String.eqb serverUrl "" = false.
Proof. intros H. by apply String.eqb_neq. Qed.

(** Every rejected request leaves the package state as it was. *)
Lemma toggle_rejected_unchanged serverUrl bind g :
  (handleDisableServerToggle serverUrl bind g).2 ≠ success →
  (handleDisableServerToggle serverUrl bind g).1 = g.
Proof.
  unfold handleDisableServerToggle.
  destruct (String.eqb serverUrl ""); [done|].
  destruct bind as [e|req]; [done|].
  destruct (negb (Disabled req) && _); [done|].
  destruct (isServerDisabled g serverUrl) as [isDisabled reason].
  destruct (isDisabled && Disabled req); [done|].
  destruct (negb isDisabled && negb (Disabled req)); [done|].
  simpl. intros H. by destruct H.
Qed.




(** The rows of the table, evaluated on the handler: an explicit
    [permDisabeld] entry is enabled to [tempEnabled]. *)
Example toggle_permDisabled_entry_enabled :
  let g := Examples.director {[Examples.originUrl := permDisabeld]} ∅ in
  disabledServers (toggle Examples.originUrl false g).1 !! Examples.originUrl
  = Some tempEnabled.
Proof. reflexivity. Qed.

(** A server that is statically filtered and has no entry: the handler
    rejects both requests for it. *)
Lemma toggle_static_without_entry g serverUrl disableRequested :
  serverUrl ≠ "" →
  disabledServers g !! serverUrl = None →
  serverUrl ∈ staticFilter g →
  (toggle serverUrl disableRequested g).1 = g
  ∧ isFailure (toggle serverUrl disableRequested g).2.
Proof.
  intros Hne Hm Hs.
  unfold toggle, handleDisableServerToggle, isServerDisabled.
  rewrite (serverUrl_nonempty _ Hne), Hm. cbn [Disabled].
  destruct disableRequested; cbn.
  - rewrite decide_True by done. cbn. split; [done | eexists; reflexivity].
  - split; [done | eexists; reflexivity].
Qed.

(** A request violates a precondition of the table exactly when it asks
    for the availability the server already has. *)
Lemma table_conflict_iff g serverUrl current disableRequested :
  currentState g serverUrl = Some current →
  transitionTable current disableRequested = conflict
  ↔ (isServerDisabled g serverUrl).1 = disableRequested.
Proof.
  unfold currentState, isServerDisabled.
  destruct (disabledServers g !! serverUrl) as [[]|];
    try case_decide; intros [= <-]; destruct disableRequested; cbn;
    split; (done || discriminate).
Qed.

(** C2. Every toggle request that violates a precondition of the section
    4.1 table (disable of a server that is disabled, enable of a server
    that is not disabled) returns a conflict error that carries the
    current reason, and the state after the call is the state before
    it. *)
Theorem toggle_conflict_leaves_state g serverUrl disableRequested :
  serverUrl ≠ "" →
  (isServerDisabled g serverUrl).1 = disableRequested →
  (toggle serverUrl disableRequested g).1 = g
  ∧ ConflictError (isServerDisabled g serverUrl).2
      (toggle serverUrl disableRequested g).2.
Proof.
  intros Hne.
  unfold toggle, handleDisableServerToggle, isServerDisabled, ConflictError,
    carriesReason, notDisabledText.
  rewrite (serverUrl_nonempty _ Hne). cbn [Disabled].
  destruct (disabledServers g !! serverUrl) as [[]|] eqn:Hm;
    try case_decide; cbn; intros <-; cbn;
    (split; [done|]); eexists; (split; [reflexivity|]);
    first [ right; by split
          | left; apply elem_of_cons; right; by apply list_elem_of_singleton ].
Qed.

Lemma toggle_conflict_leaves_state_witness :
  let g := Examples.director ∅ {[Examples.originUrl]} in
  Examples.originUrl ≠ ""
  ∧ (isServerDisabled g Examples.originUrl).1 = true
  ∧ (toggle Examples.originUrl true g).1 = g
  ∧ ConflictError (isServerDisabled g Examples.originUrl).2
      (toggle Examples.originUrl true g).2.
Proof.
  cbv zeta. split; [discriminate|]. split; [reflexivity|].
  apply (toggle_conflict_leaves_state
           (Examples.director ∅ {[Examples.originUrl]})
           Examples.originUrl true); [discriminate | reflexivity].
Defined.

(** The two conflict errors of a server without an override. *)
Example toggle_conflict_messages :
  (toggle Examples.originUrl false (Examples.director ∅ ∅)).2
  = [JSON StatusBadRequest
       (SimpleBody {| Status := RespFailed; Msg := notDisabledText |})]
  ∧ (toggle Examples.originUrl true
       (Examples.director {[Examples.originUrl := tempDisabled]} ∅)).2
    = [JSON StatusBadRequest
         (SimpleBody
            {| Status := RespFailed;
               Msg :=
                 [Text "Can't disable a server that already has been disabled with reason: ";
                  ReasonVal tempDisabled] |})].
Proof. split; reflexivity. Qed.

Lemma toggleCycles_fixpoint n serverUrl g :
  toggle serverUrl false (toggle serverUrl true g).1 = (g, success) →
  (toggle serverUrl true g).2 = success →
  toggleCycles n serverUrl g =
    (g, concat (replicate (2 * n) success)).
Proof.
  intros Hback Hfirst. induction n as [|n IH]; [done|].
  cbn [toggleCycles].
  destruct (toggle serverUrl true g) as [g1 r1] eqn:E1.
  cbn in Hback, Hfirst. rewrite Hback, IH. subst r1.
  replace (2 * S n)%nat with (S (S (2 * n))) by lia.
  reflexivity.
Qed.

(** C3. For a server in state [tempEnabled], a disable request records an
    explicit [permDisabled] entry (the entry is not deleted), a following
    enable request brings the registry back to the state it started from,
    with the server [tempEnabled] again, and any number of such rounds
    succeeds and ends in that same state. *)
Theorem tempEnabled_cycle_stable g serverUrl n :
  serverUrl ≠ "" →
  disabledServers g !! serverUrl = Some tempEnabled →
  toggle serverUrl true g =
    (setDisabledServers (<[serverUrl := permDisabeld]> (disabledServers g)) g,
     success)
  ∧ disabledServers (toggle serverUrl true g).1 !! serverUrl
    = Some permDisabeld
  ∧ toggle serverUrl false (toggle serverUrl true g).1 = (g, success)
  ∧ toggleCycles n serverUrl g = (g, concat (replicate (2 * n) success)).
Proof.
  intros Hne Hm.
  assert (Hdis : toggle serverUrl true g =
    (setDisabledServers (<[serverUrl := permDisabeld]> (disabledServers g)) g,
     success)).
  { unfold toggle, handleDisableServerToggle, isServerDisabled.
    rewrite (serverUrl_nonempty _ Hne), Hm. reflexivity. }
  assert (Hen : toggle serverUrl false (toggle serverUrl true g).1
                = (g, success)).
  { rewrite Hdis. unfold toggle, handleDisableServerToggle, isServerDisabled.
    rewrite (serverUrl_nonempty _ Hne). cbn.
    rewrite lookup_insert_eq. cbn.
    rewrite insert_insert_eq, (insert_id _ _ _ Hm).
    unfold setDisabledServers. cbn. by destruct g. }
  split; [exact Hdis|]. split.
  { rewrite Hdis. cbn. apply lookup_insert_eq. }
  split; [exact Hen|].
  apply toggleCycles_fixpoint; [exact Hen | by rewrite Hdis].
Qed.

Lemma tempEnabled_cycle_stable_witness :
  Examples.originUrl ≠ ""
  ∧ ({[Examples.originUrl := tempEnabled]} : gmap string disabledReason)
      !! Examples.originUrl = Some tempEnabled
  ∧ toggleCycles 3 Examples.originUrl
      (Examples.director {[Examples.originUrl := tempEnabled]} ∅)
    = (Examples.director {[Examples.originUrl := tempEnabled]} ∅,
       concat (replicate (2 * 3) success)).
Proof.
  split; [discriminate|]. split; [reflexivity|].
  apply (tempEnabled_cycle_stable
           (Examples.director {[Examples.originUrl := tempEnabled]} ∅)
           Examples.originUrl 3); [discriminate | reflexivity].
Defined.

End OverrideRegistry.

(** ** [path.Clean]: what the cleaned path can look like *)

Section PathCleaning.

Import GoStrings GoPath.

Implicit Types (buf rest : list ascii) (rooted inElem : bool) (c : ascii).

Local Ltac split_inv := split; [|split; [|split]].

Lemma cleanInv_snoc rooted buf dotdot c :
  cleanInv rooted buf dotdot → c ≠ slash →
  cleanInv rooted (buf ++ [c]) dotdot.
Proof.
  intros (H1 & H2 & H3 & H4) Hc. split_inv.
  - rewrite length_app. lia.
  - intros i -> Hi. apply (H2 i eq_refl).
    by rewrite lookup_app_l in Hi by lia.
  - intros i Hlen Hi. rewrite length_app in Hlen. cbn in Hlen.
    apply lookup_snoc_Some in Hi as [[Hlt _]|[_ ?]]; [lia | congruence].
  - intros i Hi Hn.
    apply lookup_snoc_Some in Hi as [[Hlt Hi]|[_ ?]]; [|congruence].
    apply lookup_snoc_Some in Hn as [[_ Hn]|[_ ?]]; [|congruence].
    by apply (H4 i).
Qed.

Lemma cleanInv_snoc_slash rooted buf dotdot c :
  cleanInv rooted buf dotdot →
  (∀ i : nat, length buf = S i → buf !! i ≠ Some slash) →
  c ≠ slash →
  cleanInv rooted ((buf ++ [slash]) ++ [c]) dotdot.
Proof.
  intros (H1 & H2 & H3 & H4) Hlast Hc. split_inv.
  - rewrite !length_app. lia.
  - intros i -> Hi. apply (H2 i eq_refl).
    by rewrite <- app_assoc, lookup_app_l in Hi by lia.
  - intros i Hlen Hi.
    apply lookup_snoc_Some in Hi as [[Hlt _]|[_ ?]]; [|congruence].
    rewrite !length_app in Hlen. cbn in Hlen. rewrite length_app in Hlt.
    cbn in Hlt. lia.
  - intros i Hi Hn.
    apply lookup_snoc_Some in Hi as [[_ Hi]|[_ ?]]; [|congruence].
    apply lookup_snoc_Some in Hn as [[_ Hn]|[Hlen ?]]; [|congruence].
    apply lookup_snoc_Some in Hi as [[Hlt Hi]|[-> _]].
    + apply lookup_snoc_Some in Hn as [[_ Hn]|[Hlen _]].
      * by apply (H4 i).
      * by apply (Hlast i).
    + apply lookup_lt_Some in Hn. rewrite length_app in Hn. cbn in Hn. lia.
Qed.

Lemma cleanInv_at_end rooted buf dotdot :
  cleanInv rooted buf dotdot → cleanInv rooted buf (length buf).
Proof. intros (H1 & H2 & H3 & H4). by split_inv. Qed.

Lemma last_not_slash rooted buf :
  endsOK rooted buf (length buf) →
  (rooted && negb (length buf =? 1)%nat)
  || (negb rooted && negb (length buf =? 0)%nat) = true →
  ∀ i : nat, length buf = S i → buf !! i ≠ Some slash.
Proof.
  intros H Hc i Hl Hi. destruct (H i Hl Hi) as [-> ->].
  rewrite Hl in Hc. discriminate Hc.
Qed.

Lemma backtrack_spec buf dotdot w0 :
  (dotdot ≤ w0)%nat → (w0 < length buf)%nat →
  (dotdot ≤ backtrack buf dotdot w0 ≤ w0)%nat
  ∧ (backtrack buf dotdot w0 = dotdot
     ∨ buf !! backtrack buf dotdot w0 = Some slash).
Proof.
  induction w0 as [|w IH]; intros Hd Hw; cbn [backtrack].
  - split; [lia|]. left. lia.
  - destruct (dotdot <? S w)%nat eqn:Hlt; cbn [andb].
    + apply Nat.ltb_lt in Hlt.
      destruct (Ascii.eqb_spec (nth (S w) buf slash) slash) as [Heq|Hneq];
        cbn [negb].
      * split; [lia|]. right.
        destruct (nth_lookup_or_length buf (S w) slash) as [->|]; [|lia].
        by rewrite Heq.
      * destruct IH as [? ?]; [lia | lia |]. split; [lia | done].
    + apply Nat.ltb_ge in Hlt. split; [lia|]. left. lia.
Qed.

Lemma cleanInv_take rooted buf dotdot w :
  cleanInv rooted buf dotdot →
  (dotdot ≤ w ≤ length buf)%nat →
  w = dotdot ∨ buf !! w = Some slash →
  cleanInv rooted (take w buf) dotdot.
Proof.
  intros (H1 & H2 & H3 & H4) Hw Hstop.
  unfold cleanInv. rewrite length_take_le by lia. split_inv.
  - lia.
  - intros i -> Hi. apply (H2 i eq_refl).
    by rewrite lookup_take_lt in Hi by lia.
  - intros i -> Hi. rewrite lookup_take_lt in Hi by lia.
    destruct Hstop as [Heq|Hslash].
    + by apply (H2 i).
    + by destruct (H4 i Hi).
  - intros i Hi Hn. apply lookup_take_Some in Hi as [Hi _].
    apply lookup_take_Some in Hn as [Hn _]. by apply (H4 i).
Qed.

Lemma cleanInv_dotdot buf dotdot :
  cleanInv false buf dotdot →
  let buf1 := if (0 <? length buf)%nat then buf ++ [slash] else buf in
  cleanInv false (buf1 ++ [dot; dot]) (length (buf1 ++ [dot; dot])).
Proof.
  intros Hinv. cbv zeta.
  destruct (0 <? length buf)%nat eqn:Hlen.
  - apply cleanInv_at_end with (dotdot := dotdot).
    change ((buf ++ [slash]) ++ [dot; dot])
      with ((buf ++ [slash]) ++ [dot] ++ [dot]).
    rewrite app_assoc. apply cleanInv_snoc; [|done].
    apply cleanInv_snoc_slash; [done | | done].
    intros i Hl Hi. destruct Hinv as (_ & _ & H3 & _).
    by destruct (H3 i Hl Hi).
  - apply Nat.ltb_ge in Hlen. destruct buf; [|cbn in Hlen; lia].
    split_inv; cbn; try lia.
    + intros [|[|i]] Hi; cbn; try lia; discriminate.
    + intros [|[|i]] Hi; cbn; try lia; discriminate.
    + intros [|[|i]]; cbn; discriminate.
Qed.

(** The loop keeps the invariant, so the cleaned buffer ends in a slash
    only when it is the root. *)
Lemma cleanLoop_endsOK n : ∀ rest rooted inElem buf dotdot,
  (length rest ≤ n)%nat →
  cleanInv rooted buf dotdot →
  endsOK rooted (cleanLoop rooted inElem rest buf dotdot)
    (length (cleanLoop rooted inElem rest buf dotdot)).
Proof.
  induction n as [|n IH]; intros rest rooted inElem buf dotdot Hn Hinv.
  { destruct rest; [|cbn in Hn; lia]. cbn. apply Hinv. }
  destruct rest as [|c rest']; [cbn; apply Hinv|].
  cbn in Hn. cbn [cleanLoop].
  assert (Hgo : ∀ r e b d, (length r ≤ n)%nat → cleanInv rooted b d →
            endsOK rooted (cleanLoop rooted e r b d)
              (length (cleanLoop rooted e r b d))).
  { intros r e b d. apply IH. }
  destruct inElem.
  { destruct (Ascii.eqb_spec c slash) as [->|Hc].
    - apply Hgo; [lia | done].
    - apply Hgo; [lia | by apply cleanInv_snoc]. }
  destruct (Ascii.eqb_spec c slash) as [->|Hc]; [apply Hgo; [lia | done]|].
  assert (Helem : ∀ buf1,
            buf1 = (if (rooted && negb (length buf =? 1)%nat)
                       || (negb rooted && negb (length buf =? 0)%nat)
                    then buf ++ [slash] else buf) →
            cleanInv rooted (buf1 ++ [c]) dotdot).
  { intros buf1 ->.
    destruct ((rooted && negb (length buf =? 1)%nat)
              || (negb rooted && negb (length buf =? 0)%nat)) eqn:Hcond.
    - apply cleanInv_snoc_slash; [done | | done].
      apply (last_not_slash rooted); [apply Hinv | done].
    - by apply cleanInv_snoc. }
  destruct (Ascii.eqb c dot && atElemEnd rest').
  { apply Hgo; [lia | done]. }
  destruct rest' as [|c2 rest''].
  { apply Hgo; [cbn; lia | by apply Helem]. }
  cbn in Hn.
  destruct (Ascii.eqb c dot && Ascii.eqb c2 dot && atElemEnd rest'').
  2:{ apply Hgo; [cbn; lia | by apply Helem]. }
  destruct (dotdot <? length buf)%nat eqn:Hlt.
  - apply Nat.ltb_lt in Hlt. apply Hgo; [lia|].
    destruct (backtrack_spec buf dotdot (length buf - 1)) as [? ?]; [lia..|].
    apply cleanInv_take; [done | lia | done].
  - destruct rooted; cbn [negb].
    + apply Hgo; [lia | done].
    + apply Hgo; [lia|]. by apply (cleanInv_dotdot buf dotdot).
Qed.

Lemma string_of_list_ascii_length l :
  String.length (string_of_list_ascii l) = length l.
Proof. induction l; cbn; congruence. Qed.

(** [HasSuffix s "/"] looks at the last byte. *)
Lemma HasSuffix_slash_last l :
  HasSuffix (string_of_list_ascii l) "/" = true → last l = Some slash.
Proof.
  unfold HasSuffix. rewrite string_of_list_ascii_length. cbn [String.length].
  induction l as [|a l IH]; [done|].
  destruct l as [|b l].
  - cbn. by destruct (Ascii.eqb_spec a "/"%char) as [->|].
  - intros H. cbn [last]. apply IH. revert H.
    cbn [length]. replace (S (S (length l)) - 1)%nat with (S (length l)) by lia.
    replace (S (length l) - 1)%nat with (length l) by lia.
    cbn [Nat.leb string_of_list_ascii String.substring]. done.
Qed.

(** The cleaned path ends in a slash only when it is the root path. *)
Theorem Clean_slash_suffix_is_root pathParam :
  HasSuffix (Clean pathParam) "/" = true → Clean pathParam = "/".
Proof.
  unfold Clean. destruct (list_ascii_of_string pathParam) as [|c tl];
    [discriminate|].
  cbv zeta.
  set (rooted := Ascii.eqb c slash).
  assert (Hout : ∃ out,
    (if rooted then cleanLoop true false tl [slash] 1
     else cleanLoop false false (c :: tl) [] 0) = out
    ∧ endsOK rooted out (length out)) .
  { eexists. split; [reflexivity|]. destruct rooted.
    - eapply cleanLoop_endsOK; [done|]. split_inv; cbn; try lia.
      + intros [|i] Hi; [done | lia].
      + intros [|i] Hi; [done | lia].
      + intros [|i]; cbn; discriminate.
    - eapply cleanLoop_endsOK; [done|]. split_inv; cbn; try lia.
      + intros i Hi. lia.
      + intros i Hi. lia.
      + intros i; cbn; discriminate. }
  destruct Hout as (out & -> & Hends).
  destruct out as [|a out]; [discriminate|].
  intros Hsuf. apply HasSuffix_slash_last in Hsuf.
  rewrite last_lookup in Hsuf. cbn [length Nat.pred] in Hsuf.
  destruct (Hends (length out) eq_refl Hsuf) as [_ Hlen].
  destruct out; [|discriminate]. cbn in Hsuf. by injection Hsuf as ->.
Qed.

End PathCleaning.

(** ** Object availability: [queryOrigins] *)

Section ObjectAvailability.

Import GoStrings GoPath Director.

Implicit Types (Query : string → Z → Z → QueryResult) (pathParam : string).

(** [path.Clean] never returns the empty string. *)
Lemma Clean_nonempty pathParam : Clean pathParam ≠ "".
Proof.
  unfold Clean. destruct (list_ascii_of_string pathParam) as [|c tl]; [done|].
  cbv zeta.
  destruct (if Ascii.eqb c slash then _ else _) as [|a out]; [done|].
  cbn. discriminate.
Qed.

(** Requests that pass the path check and bind their parameters reach
    [Query] with the cleaned path. *)
Lemma queryOrigins_calls_Query Query pathParam queryParams :
  HasSuffix (Clean pathParam) "/" = false →
  ∃ rest completion,
    queryOrigins Query pathParam (inr queryParams) =
      (QueryCall (Clean pathParam) (MinResponses queryParams)
         (MaxResponses queryParams) :: rest, completion).
Proof.
  intros Hsuf. unfold queryOrigins. rewrite Hsuf.
  destruct (String.eqb_spec (Clean pathParam) "") as [E|_];
    [by apply Clean_nonempty in E|].
  cbn [orb].
  destruct (Query _ _ _) as [[meta msg] [e|]].
  - repeat case_decide; try (eexists _, _; reflexivity).
    destruct (length meta <? 1)%nat; [eexists _, _; reflexivity|].
    destruct (queryOriginsTail meta msg (Some e)). eexists _, _; reflexivity.
  - destruct (queryOriginsTail meta msg None). eexists _, _; reflexivity.
Qed.

(** C4 (defect in the handler). When [Query] returns a partial result
    (at least one object) with [InsufficientResError], the handler writes
    the soft failure ([OK] false, status 200) and then, as that branch does
    not return, a second 200 response with [OK] true. *)
Theorem queryOrigins_insufficient_partial Query pathParam queryParams meta msg :
  HasSuffix (Clean pathParam) "/" = false →
  Query (Clean pathParam) (MinResponses queryParams) (MaxResponses queryParams)
    = (meta, msg, Some InsufficientResError) →
  meta ≠ [] →
  queryOrigins Query pathParam (inr queryParams)
  = ([QueryCall (Clean pathParam) (MinResponses queryParams)
        (MaxResponses queryParams);
      JSON StatusOK
        (StatBody {| OK := false; Message := [Text msg]; Metadata := meta |});
      JSON StatusOK
        (StatBody {| OK := true; Message := [Text msg]; Metadata := meta |})],
     Returned).
Proof.
  intros Hsuf HQ Hmeta. unfold queryOrigins. rewrite Hsuf, HQ.
  destruct (String.eqb_spec (Clean pathParam) "") as [E|_];
    [by apply Clean_nonempty in E|].
  cbn [orb]. destruct meta as [|m meta]; [done|].
  reflexivity.
Qed.

(** One successful probe with a quorum of two. *)
Lemma queryOrigins_insufficient_partial_witness :
  HasSuffix (Clean "/ns/object") "/" = false
  ∧ [Examples.oneObject] ≠ []
  ∧ queryOrigins
      (fun _ _ _ =>
         ([Examples.oneObject], "1/2 responses", Some InsufficientResError))
      "/ns/object" (inr {| MinResponses := 2; MaxResponses := 3 |})
    = ([QueryCall "/ns/object" 2 3;
        JSON StatusOK
          (StatBody {| OK := false; Message := [Text "1/2 responses"];
                       Metadata := [Examples.oneObject] |});
        JSON StatusOK
          (StatBody {| OK := true; Message := [Text "1/2 responses"];
                       Metadata := [Examples.oneObject] |})],
       Returned).
Proof.
  split; [reflexivity|]. split; [discriminate|].
  apply (queryOrigins_insufficient_partial
           (fun _ _ _ =>
              ([Examples.oneObject], "1/2 responses", Some InsufficientResError))
           "/ns/object" {| MinResponses := 2; MaxResponses := 3 |}
           [Examples.oneObject] "1/2 responses");
    [reflexivity | reflexivity | discriminate].
Defined.

(** C5 (defect in the handler). When [Query] returns no result, the handler
    answers 404 if the error is [InsufficientResError]; if there is no error
    it evaluates [err.Error()] on the nil error while building the 404
    message and panics before any response is written, so that outcome is
    not reported as not-found. *)
Theorem queryOrigins_no_result Query pathParam queryParams msg err :
  HasSuffix (Clean pathParam) "/" = false →
  Query (Clean pathParam) (MinResponses queryParams) (MaxResponses queryParams)
    = ([], msg, err) →
  err = Some InsufficientResError ∨ err = None →
  queryOrigins Query pathParam (inr queryParams)
  = match err with
    | Some _ =>
        ([QueryCall (Clean pathParam) (MinResponses queryParams)
            (MaxResponses queryParams);
          JSON StatusNotFound
            (SimpleBody {| Status := RespFailed;
                           Msg := [Text msg; Text noObjectHint] |})],
         Returned)
    | None =>
        ([QueryCall (Clean pathParam) (MinResponses queryParams)
            (MaxResponses queryParams)], Panicked)
    end.
Proof.
  intros Hsuf HQ Herr. unfold queryOrigins. rewrite Hsuf, HQ.
  destruct (String.eqb_spec (Clean pathParam) "") as [E|_];
    [by apply Clean_nonempty in E|].
  by destruct Herr as [-> | ->].
Qed.

Lemma queryOrigins_no_result_witness :
  HasSuffix (Clean "/ns/object") "/" = false
  ∧ queryOrigins (fun _ _ _ => ([], "", None)) "/ns/object"
      (inr {| MinResponses := 1; MaxResponses := 1 |})
    = ([QueryCall "/ns/object" 1 1], Panicked).
Proof.
  split; [reflexivity|].
  apply (queryOrigins_no_result (fun _ _ _ => ([], "", None))
           "/ns/object" {| MinResponses := 1; MaxResponses := 1 |} "" None);
    [reflexivity | reflexivity | by right].
Defined.

(** C9 (defect in the handler). Whenever [Query] returns a nil error
    together with an empty metadata list, the handler reaches the not-found
    branch after the error block and calls [Error()] on the nil error: the
    invocation panics and writes no response. *)
Theorem queryOrigins_nil_error_panics Query pathParam queryParams msg :
  HasSuffix (Clean pathParam) "/" = false →
  Query (Clean pathParam) (MinResponses queryParams) (MaxResponses queryParams)
    = ([], msg, None) →
  (queryOrigins Query pathParam (inr queryParams)).2 = Panicked
  ∧ Error None = None
  ∧ ∀ code body,
      JSON code body ∉ (queryOrigins Query pathParam (inr queryParams)).1.
Proof.
  intros Hsuf HQ. unfold queryOrigins. rewrite Hsuf, HQ.
  destruct (String.eqb_spec (Clean pathParam) "") as [E|_];
    [by apply Clean_nonempty in E|].
  cbn. split; [done|]. split; [done|].
  intros code body Hin. by apply list_elem_of_singleton in Hin.
Qed.

Lemma queryOrigins_nil_error_panics_witness :
  HasSuffix (Clean "/ns/object") "/" = false
  ∧ (queryOrigins (fun _ _ _ => ([], "", None)) "/ns/object"
       (inr {| MinResponses := 1; MaxResponses := 1 |})).2 = Panicked.
Proof.
  split; [reflexivity|].
  apply (queryOrigins_nil_error_panics (fun _ _ _ => ([], "", None))
           "/ns/object" {| MinResponses := 1; MaxResponses := 1 |} "");
    reflexivity.
Defined.

(** The error block itself never calls [Error()] on nil: every other
    panic-free path.  The only panicking invocations are those of the
    previous theorem. *)
Lemma queryOrigins_panics_only_on_nil_error Query pathParam bind effects :
  queryOrigins Query pathParam bind = (effects, Panicked) →
  ∃ queryParams msg,
    bind = inr queryParams
    ∧ Query (Clean pathParam) (MinResponses queryParams)
        (MaxResponses queryParams) = ([], msg, None).
Proof.
  unfold queryOrigins.
  destruct (String.eqb _ _ || HasSuffix _ _); [discriminate|].
  destruct bind as [e|queryParams]; [discriminate|].
  destruct (Query _ _ _) as [[meta msg] [e|]] eqn:HQ.
  - repeat case_decide; try discriminate.
    destruct meta; cbn; discriminate.
  - destruct meta; cbn; [|discriminate]. intros _. by exists queryParams, msg.
Qed.

(** The path check of the handler fires exactly when the cleaned path is
    the root: the comparison with the empty string never succeeds, and only
    the root keeps a final slash through [path.Clean]. *)
Lemma path_check_rejects_only_root pathParam :
  String.eqb (Clean pathParam) "" || HasSuffix (Clean pathParam) "/" = true
  ↔ Clean pathParam = "/".
Proof.
  destruct (String.eqb_spec (Clean pathParam) "") as [E|_];
    [by apply Clean_nonempty in E|].
  cbn [orb]. split.
  - apply Clean_slash_suffix_is_root.
  - by intros ->.
Qed.

(** C6 (defect in the handler). The path check runs on the cleaned path:
    [path.Clean] strips a trailing slash and turns the empty path into ["."],
    so every request whose cleaned path is not the root, slash-terminated
    or empty as the requested path may be, passes the check and reaches
    [Query] with the cleaned path. *)
Theorem queryOrigins_rejects_only_root Query pathParam queryParams :
  Clean pathParam ≠ "/" →
  ∃ rest completion,
    queryOrigins Query pathParam (inr queryParams) =
      (QueryCall (Clean pathParam) (MinResponses queryParams)
         (MaxResponses queryParams) :: rest, completion).
Proof.
  intros Hroot. apply queryOrigins_calls_Query.
  destruct (HasSuffix (Clean pathParam) "/") eqn:E; [|done].
  by apply Clean_slash_suffix_is_root in E.
Qed.

Lemma queryOrigins_rejects_only_root_witness :
  Clean "/ns/object/" ≠ "/"
  ∧ ∃ rest completion,
      queryOrigins (fun _ _ _ => ([Examples.oneObject], "", None))
        "/ns/object/" (inr {| MinResponses := 1; MaxResponses := 1 |}) =
        (QueryCall "/ns/object" 1 1 :: rest, completion).
Proof.
  split; [discriminate|].
  apply (queryOrigins_rejects_only_root
           (fun _ _ _ => ([Examples.oneObject], "", None))
           "/ns/object/" {| MinResponses := 1; MaxResponses := 1 |}).
  discriminate.
Defined.

(** A slash-terminated and an empty path parameter, evaluated. *)
Example queryOrigins_trailing_slash :
  Clean "/ns/object/" = "/ns/object"
  ∧ Clean "" = "."
  ∧ queryOrigins (fun _ _ _ => ([Examples.oneObject], "", None))
      "/ns/object/" (inr {| MinResponses := 1; MaxResponses := 1 |})
    = ([QueryCall "/ns/object" 1 1;
        JSON StatusOK
          (StatBody {| OK := true; Message := [Text ""];
                       Metadata := [Examples.oneObject] |})], Returned).
Proof. repeat split. Qed.

(** The root path is the one the check does reject. *)
Lemma queryOrigins_root_rejected Query bind :
  queryOrigins Query "/" bind
  = ([JSON StatusBadRequest
        (SimpleBody
           {| Status := RespFailed;
              Msg := [Text "Path should not be empty or ended with slash '/'"] |})],
     Returned).
Proof. reflexivity. Qed.

End ObjectAvailability.

(** ** Server listing: [listServers] *)

Section Listing.

Import GoStrings Director.

(** C10 (defect in the handler). A [server_type] value that passes the
    case-insensitive validation but is not exactly one of the two lower-case
    names is mapped by [ToInternalServerType] to the empty type, so the
    listing holds the advertisements of the empty type only, not those of
    the origin or cache type the value names. *)
Theorem listServers_other_casing g serverType :
  serverType ≠ "" →
  EqualFold serverType OriginType || EqualFold serverType CacheType = true →
  serverType ≠ "origin" → serverType ≠ "cache" →
  ToInternalServerType {| ServerType_ := serverType |} = ""
  ∧ listServers (inr {| ServerType_ := serverType |}) g
    = [JSON StatusOK
         (ServersBody
            (List.map (serverResponse g) (listAdvertisement g [""])))].
Proof.
  intros Hne Hfold Ho Hc. unfold listServers, ToInternalServerType.
  cbn [ServerType_].
  apply String.eqb_neq in Hne, Ho, Hc. rewrite Hne, Ho, Hc. cbn [negb].
  split; [done|].
  apply orb_true_iff in Hfold as [-> | ->]; cbn; [done|].
  by rewrite andb_false_r.
Qed.

Lemma listServers_other_casing_witness :
  "ORIGIN" ≠ ""
  ∧ EqualFold "ORIGIN" OriginType || EqualFold "ORIGIN" CacheType = true
  ∧ "ORIGIN" ≠ "origin" ∧ "ORIGIN" ≠ "cache"
  ∧ ToInternalServerType {| ServerType_ := "ORIGIN" |} = ""
  ∧ listServers (inr {| ServerType_ := "ORIGIN" |}) (Examples.director ∅ ∅)
    = [JSON StatusOK (ServersBody [])].
Proof.
  split; [discriminate|]. split; [reflexivity|].
  split; [discriminate|]. split; [discriminate|].
  apply (listServers_other_casing (Examples.director ∅ ∅) "ORIGIN");
    [discriminate | reflexivity | discriminate | discriminate].
Defined.

(** The lower-case name lists the origin; the type's own name [Origin] and
    the upper-case spelling list nothing. *)
Example listServers_by_spelling :
  let g := Examples.director ∅ ∅ in
  listServers (inr {| ServerType_ := "origin" |}) g
    = [JSON StatusOK (ServersBody [serverResponse g Examples.originAd])]
  ∧ listServers (inr {| ServerType_ := "Origin" |}) g
    = [JSON StatusOK (ServersBody [])]
  ∧ listServers (inr {| ServerType_ := "ORIGIN" |}) g
    = [JSON StatusOK (ServersBody [])]
  ∧ listServers (inr {| ServerType_ := "tape" |}) g
    = [JSON StatusBadRequest
         (SimpleBody {| Status := RespFailed;
                        Msg := [Text "Invalid server type"] |})].
Proof. cbv zeta. repeat split. Qed.

End Listing.

(** ** Director heartbeat: [directorTestResponse] and the timeout loop *)

Section Heartbeat.

Import OriginUI.

Implicit Types (g : Globals) (dt : DirectorTest).

Lemma directorTimeoutDuration_pos : (0 < directorTimeoutDuration)%Z.
Proof. reflexivity. Qed.

(** One expiry: the clock reaches the deadline, the loop marks the director
    critical and arms the timer for the next period. *)
Lemma nextExpiry_armed g d c :
  directorTimeoutTimer g = Some {| deadline := Some d; C := c |} →
  (now g ≤ d)%Z →
  timeoutLoop g = true →
  exitLoop g = false →
  nextExpiry g = Some
    {| now := d;
       directorTimeoutTimer :=
         Some {| deadline := Some (d + directorTimeoutDuration); C := false |};
       timeoutLoop := true;
       exitLoop := false;
       componentHealth :=
         <["director" := (StatusCritical, timeoutMessage)]> (componentHealth g);
       events :=
         events g ++
           [Warningln timeoutMessage;
            HealthSet d "director" StatusCritical timeoutMessage;
            TimerArmed (d + directorTimeoutDuration)] |}.
Proof.
  intros Ht Hnow Hloop Hexit. unfold nextExpiry, timePasses. rewrite Ht.
  rewrite (proj2 (Z.ltb_ge d (now g))) by lia.
  rewrite Z.leb_refl. unfold timeoutLoopStep. cbn. rewrite Hloop, Hexit. cbn.
  unfold arm, emit, setTimer. cbn.
  by rewrite <- !app_assoc.
Qed.

Lemma criticalTimes_app l1 l2 :
  criticalTimes (l1 ++ l2) = criticalTimes l1 ++ criticalTimes l2.
Proof. apply omap_app. Qed.

Lemma deadlines_shift d n :
  d :: List.map
         (fun k => d + directorTimeoutDuration
                   + Z.of_nat k * directorTimeoutDuration) (seq 0 n)
  = List.map (fun k => d + Z.of_nat k * directorTimeoutDuration) (seq 0 (S n)).
Proof.
  change (seq 0 (S n)) with (0%nat :: seq 1 n).
  rewrite <- seq_shift, List.map_cons, List.map_map.
  f_equal; [lia|]. apply List.map_ext. intros k. lia.
Qed.

(** C8. In a run of the deadline monitor without any report, every expiry
    of the timer marks the director component critical with the
    deadline-exceeded message and re-arms the same duration at once: after
    [n+1] expiries the clock stands at the [n+1]-th deadline, the component
    is critical, the timer is armed one duration later, and the component
    was marked critical exactly at the deadlines [d, d + D, ..., d + n D]. *)
Theorem silent_run_expires_every_period n : ∀ g d,
  directorTimeoutTimer g = Some {| deadline := Some d; C := false |} →
  (now g ≤ d)%Z →
  timeoutLoop g = true →
  exitLoop g = false →
  ∃ g',
    silentRun (S n) g = Some g'
    ∧ now g' = d + Z.of_nat n * directorTimeoutDuration
    ∧ componentHealth g' !! "director" = Some (StatusCritical, timeoutMessage)
    ∧ directorTimeoutTimer g' =
        Some {| deadline := Some (d + Z.of_nat (S n) * directorTimeoutDuration);
                C := false |}
    ∧ timeoutLoop g' = true
    ∧ exitLoop g' = false
    ∧ criticalTimes (events g') =
        criticalTimes (events g) ++
          List.map (fun k => d + Z.of_nat k * directorTimeoutDuration)
            (seq 0 (S n)).
Proof.
  induction n as [|n IH]; intros g d Ht Hnow Hloop Hexit.
  - cbn [silentRun]. rewrite (nextExpiry_armed g d false Ht Hnow Hloop Hexit).
    eexists. split; [reflexivity|]. cbn [now componentHealth
      directorTimeoutTimer timeoutLoop exitLoop events].
    split; [lia|]. split; [apply lookup_insert_eq|].
    split; [do 3 f_equal; lia|]. split; [done|]. split; [done|].
    rewrite criticalTimes_app. cbn. do 2 f_equal. lia.
  - change (silentRun (S (S n)) g)
      with (match nextExpiry g with
            | Some g' => silentRun (S n) g'
            | None => None
            end).
    rewrite (nextExpiry_armed g d false Ht Hnow Hloop Hexit).
    match goal with
    | |- context [silentRun (S n) ?g1] =>
        destruct (IH g1 (d + directorTimeoutDuration))
          as (g' & Hrun & Hn & Hh & Htimer & Hl & Hx & Hev);
          [reflexivity | cbn; pose proof directorTimeoutDuration_pos; lia
          | reflexivity | reflexivity |]
    end.
    exists g'. split; [exact Hrun|].
    split; [rewrite Hn; lia|]. split; [exact Hh|].
    split; [rewrite Htimer; do 3 f_equal; lia|]. split; [exact Hl|].
    split; [exact Hx|].
    rewrite Hev. cbn [events]. rewrite criticalTimes_app, <- app_assoc.
    f_equal. rewrite <- (deadlines_shift d (S n)). reflexivity.
Qed.

Lemma silent_run_expires_every_period_witness :
  directorTimeoutTimer Examples.started
    = Some {| deadline := Some (30 * Second); C := false |}
  ∧ (now Examples.started ≤ 30 * Second)%Z
  ∧ timeoutLoop Examples.started = true
  ∧ exitLoop Examples.started = false
  ∧ ∃ g',
      silentRun 3 Examples.started = Some g'
      ∧ now g' = 30 * Second + Z.of_nat 2 * directorTimeoutDuration
      ∧ componentHealth g' !! "director"
        = Some (StatusCritical, timeoutMessage)
      ∧ directorTimeoutTimer g' =
          Some {| deadline :=
                    Some (30 * Second + Z.of_nat 3 * directorTimeoutDuration);
                  C := false |}
      ∧ timeoutLoop g' = true
      ∧ exitLoop g' = false
      ∧ criticalTimes (events g') =
          criticalTimes (events Examples.started) ++
            List.map (fun k => 30 * Second + Z.of_nat k * directorTimeoutDuration)
              (seq 0 3).
Proof.
  split; [reflexivity|]. split; [vm_compute; discriminate|].
  split; [reflexivity|]. split; [reflexivity|].
  apply (silent_run_expires_every_period 2 Examples.started (30 * Second));
    [reflexivity | vm_compute; discriminate | reflexivity | reflexivity].
Defined.

(** The first three expiries after start-up fall at 30, 60 and 90 seconds. *)
Example silent_run_90_seconds :
  (λ g, (now g, criticalTimes (events g))) <$> silentRun 3 Examples.started
  = Some (90 * Second, [30 * Second; 60 * Second; 90 * Second]).
Proof. reflexivity. Qed.

(** C7, as the claim states it, fails: ten seconds after start-up a report
    whose body does not bind is answered with 400 and the timer is left
    as it was, still due at 30 seconds. *)
Lemma malformed_report_does_not_rearm :
  ∃ g',
    directorTestResponse (inl "unexpected end of JSON input")
      Examples.tenSecondsIn = Some g'
    ∧ directorTimeoutTimer g'
      = Some {| deadline := Some (30 * Second); C := false |}
    ∧ drop (length (events Examples.tenSecondsIn)) (events g')
      = [Errorln "Invalid director test response";
         JSON 400 "Invalid director test response"]
    ∧ ¬ rearmed Examples.tenSecondsIn g'.
Proof.
  eexists. split; [reflexivity|]. split; [reflexivity|].
  split; [reflexivity|].
  intros [[c Ht] _]. vm_compute in Ht. discriminate Ht.
Qed.

(** C7 (amended). A report whose body does not bind is answered with 400
    and leaves the timer as it was.  For every report whose body binds and
    that is handled while the timeout loop is not between taking an expiry
    and re-arming the timer, the deadline timer is re-armed a full duration
    from now before the status is classified; an unrecognised status is
    then answered with 400, changes no health entry, and the timer stays
    re-armed. *)
Theorem directorTestResponse_rearms_bound_reports g :
  (∀ e, ∃ g',
     directorTestResponse (inl e) g = Some g'
     ∧ directorTimeoutTimer g' = directorTimeoutTimer g
     ∧ componentHealth g' = componentHealth g
     ∧ events g' = events g ++
         [Errorln "Invalid director test response";
          JSON 400 "Invalid director test response"])
  ∧ (¬ expiryTaken g →
     ∀ dt, ∃ g' c classification,
       directorTestResponse (inr dt) g = Some g'
       ∧ directorTimeoutTimer g' =
           Some {| deadline := Some (now g + directorTimeoutDuration);
                   C := c |}
       ∧ events g' =
           events g ++
             TimerArmed (now g + directorTimeoutDuration) :: classification
       ∧ (∀ t, TimerArmed t ∉ classification)
       ∧ if recognised dt then
           ∃ status msg,
             classification = [HealthSet (now g) "director" status msg]
             ∧ componentHealth g' !! "director" = Some (status, msg)
         else
           classification =
             [Errorln ("Invalid director test response, status: "
                       +:+ Status dt);
              JSON 400 ("Invalid director test response status: "
                        +:+ Status dt)]
           ∧ componentHealth g' = componentHealth g).
Proof.
  split.
  - intros e. eexists. split; [reflexivity|]. cbn.
    by rewrite <- app_assoc.
  - intros Hnot dt.
    unfold directorTestResponse, resetDirectorTimeoutTimer, recognised.
    assert (Hno : ∀ (l : list Event) t,
              (∀ e, e ∈ l → ∀ t', e ≠ TimerArmed t') → TimerArmed t ∉ l).
    { intros l t H Hin. by apply (H _ Hin t). }
    destruct (directorTimeoutTimer g) as [[[d|] [|]]|] eqn:Ht;
      try (by destruct Hnot);
      destruct (String.eqb (Status dt) "ok") eqn:Eok;
      [| destruct (String.eqb (Status dt) "error") eqn:Eerr | |
       destruct (String.eqb (Status dt) "error") eqn:Eerr | |
       destruct (String.eqb (Status dt) "error") eqn:Eerr | |
       destruct (String.eqb (Status dt) "error") eqn:Eerr ];
      cbn; eexists _, _, _;
      (split; [reflexivity|]); cbn;
      (split; [reflexivity|]);
      (split; [by rewrite <- ?app_assoc|]);
      (split; [intros t; apply Hno; intros e He t';
               repeat (apply elem_of_cons in He as [->|He]; [discriminate|]);
               by apply elem_of_nil in He|]);
      try (eexists _, _; split; [reflexivity|]; apply lookup_insert_eq);
      try (split; reflexivity).
Qed.

Lemma directorTestResponse_rearms_bound_reports_witness :
  ¬ expiryTaken Examples.tenSecondsIn
  ∧ ∃ g' c classification,
      directorTestResponse
        (inr {| Status := "degraded"; Message := ""; Timestamp := "" |})
        Examples.tenSecondsIn = Some g'
      ∧ directorTimeoutTimer g' =
          Some {| deadline :=
                    Some (now Examples.tenSecondsIn + directorTimeoutDuration);
                  C := c |}
      ∧ events g' =
          events Examples.tenSecondsIn ++
            TimerArmed (now Examples.tenSecondsIn + directorTimeoutDuration)
            :: classification.
Proof.
  assert (Hnot : ¬ expiryTaken Examples.tenSecondsIn).
  { intros H. vm_compute in H. discriminate H. }
  split; [exact Hnot|].
  destruct (directorTestResponse_rearms_bound_reports Examples.tenSecondsIn)
    as [_ Hbound].
  destruct (Hbound Hnot
              {| Status := "degraded"; Message := ""; Timestamp := "" |})
    as (g' & c & classification & Hr & Ht & Hev & _).
  exists g', c, classification.
  split; [exact Hr|]. split; [exact Ht | exact Hev].
Defined.

(** A report with an unrecognised status, ten seconds after start-up: the
    sender gets 400 and the deadline moves from 30 to 40 seconds. *)
Example unrecognised_status_rearms :
  (λ g, (directorTimeoutTimer g, drop (length (events Examples.tenSecondsIn)) (events g)))
    <$> directorTestResponse
          (inr {| Status := "degraded"; Message := ""; Timestamp := "" |})
          Examples.tenSecondsIn
  = Some (Some {| deadline := Some (40 * Second); C := false |},
          [TimerArmed (40 * Second);
           Errorln "Invalid director test response, status: degraded";
           JSON 400 "Invalid director test response status: degraded"]).
Proof. reflexivity. Qed.

End Heartbeat.

(** ** Override registry: further properties of the toggle handler *)

Section OverrideRegistryMore.

Import Director.

Implicit Types (g : Globals) (serverUrl other : string).

(** Case analysis along the branches of the handler. *)
Local Ltac toggle_cases g serverUrl :=
  unfold toggle, handleDisableServerToggle, isServerDisabled;
  destruct (String.eqb_spec serverUrl "") as [?|?];
  try match goal with
      | bind : (error + patchServerRequest)%type |- _ =>
          destruct bind as [?|[[|]]]
      end;
  cbn [Disabled negb andb];
  destruct (disabledServers g !! serverUrl) as [[]|] eqn:?;
  cbn; repeat (case_decide; try discriminate); cbn.

Lemma toggle_frame_globals serverUrl bind g :
  staticFilter (handleDisableServerToggle serverUrl bind g).1 = staticFilter g
  ∧ healthTestUtils (handleDisableServerToggle serverUrl bind g).1
    = healthTestUtils g
  ∧ serverAds (handleDisableServerToggle serverUrl bind g).1 = serverAds g.
Proof. toggle_cases g serverUrl; done. Qed.

Lemma toggle_other_lookup serverUrl other bind g :
  other ≠ serverUrl →
  disabledServers (handleDisableServerToggle serverUrl bind g).1 !! other
  = disabledServers g !! other.
Proof.
  intros Hne. toggle_cases g serverUrl;
    rewrite ?lookup_insert_ne, ?lookup_delete_ne by done; done.
Qed.

Lemma toggle_other_availability serverUrl other bind g :
  other ≠ serverUrl →
  isServerDisabled (handleDisableServerToggle serverUrl bind g).1 other
  = isServerDisabled g other.
Proof.
  intros Hne. unfold isServerDisabled at 1.
  rewrite (toggle_other_lookup _ _ _ _ Hne).
  destruct (toggle_frame_globals serverUrl bind g) as (-> & _). done.
Qed.

(** What a successful request was. *)
Lemma toggle_success_inv serverUrl bind g :
  (handleDisableServerToggle serverUrl bind g).2 = success →
  serverUrl ≠ ""
  ∧ ∃ req, bind = inr req
      ∧ (isServerDisabled g serverUrl).1 = negb (Disabled req)
      ∧ (Disabled req = false → is_Some (disabledServers g !! serverUrl)).
Proof.
  toggle_cases g serverUrl; intros Hsucc; try discriminate Hsucc;
    (split; [done|]); eexists; (split; [reflexivity|]); cbn;
    (split; [done|]); intros; try done; by eexists.
Qed.

(** X1. The handler answers every request with exactly one response, the
    success response or a 400; a rejected request leaves the state as it
    was, and no request touches the static filter, the health records or
    the advertisements. *)
Theorem toggle_answers_once serverUrl bind g :
  let r := handleDisableServerToggle serverUrl bind g in
  (r.2 = success ∨ (isFailure r.2 ∧ r.1 = g))
  ∧ staticFilter r.1 = staticFilter g
  ∧ healthTestUtils r.1 = healthTestUtils g
  ∧ serverAds r.1 = serverAds g.
Proof.
  cbv zeta. toggle_cases g serverUrl;
    (split; [first [by left | right; split; [eexists; reflexivity | done]]|]);
    done.
Qed.

(** X2. A request for one server never changes the entry, nor the effective
    availability, of another. *)
Theorem toggle_other_servers_untouched serverUrl other bind g :
  other ≠ serverUrl →
  disabledServers (handleDisableServerToggle serverUrl bind g).1 !! other
    = disabledServers g !! other
  ∧ isServerDisabled (handleDisableServerToggle serverUrl bind g).1 other
    = isServerDisabled g other.
Proof.
  intros Hne. split.
  - by apply toggle_other_lookup.
  - by apply toggle_other_availability.
Qed.

Lemma toggle_other_servers_untouched_witness :
  let g :=
    Examples.director {["https://cache.example:8443" := tempDisabled]} ∅ in
  let g' :=
    (handleDisableServerToggle Examples.originUrl
       (inr {| Disabled := true |}) g).1 in
  "https://cache.example:8443" ≠ Examples.originUrl
  ∧ disabledServers g' !! "https://cache.example:8443"
    = disabledServers g !! "https://cache.example:8443"
  ∧ isServerDisabled g' "https://cache.example:8443"
    = isServerDisabled g "https://cache.example:8443".
Proof.
  cbv zeta. split; [discriminate|].
  apply (toggle_other_servers_untouched Examples.originUrl
           "https://cache.example:8443" (inr {| Disabled := true |})
           (Examples.director {["https://cache.example:8443" := tempDisabled]} ∅)).
  discriminate.
Defined.

(** X3. A request succeeds exactly when it names a server, binds, asks for the
    opposite of the server's current availability and, for an enable, the
    server has an override entry. *)
Theorem toggle_success_iff serverUrl bind g :
  (handleDisableServerToggle serverUrl bind g).2 = success
  ↔ serverUrl ≠ ""
    ∧ ∃ req, bind = inr req
        ∧ (isServerDisabled g serverUrl).1 = negb (Disabled req)
        ∧ (Disabled req = false → is_Some (disabledServers g !! serverUrl)).
Proof.
  split.
  - apply toggle_success_inv.
  - intros (Hne & req & -> & Hdis & Hentry). revert Hdis Hentry.
    destruct req as [[|]]; toggle_cases g serverUrl; intros Hdis Hentry;
      try done; try discriminate Hdis;
      by destruct (Hentry eq_refl).
Qed.

(** X4. The handler writes only the three override reasons: a map that holds
    nothing else before a request holds nothing else after it. *)
Theorem toggle_keeps_writtenOnly serverUrl bind g :
  writtenOnly (disabledServers g) →
  writtenOnly (disabledServers (handleDisableServerToggle serverUrl bind g).1).
Proof.
  unfold writtenOnly, writtenReason. intros Hw.
  toggle_cases g serverUrl;
    try done;
    try (apply map_Forall_insert_2; [auto | done]);
    try (by apply map_Forall_delete).
Qed.

Lemma toggle_keeps_writtenOnly_witness :
  writtenOnly ({[Examples.originUrl := tempEnabled]} : gmap string disabledReason)
  ∧ writtenOnly
      (disabledServers
         (handleDisableServerToggle Examples.originUrl
            (inr {| Disabled := true |})
            (Examples.director {[Examples.originUrl := tempEnabled]} ∅)).1).
Proof.
  assert (H : writtenOnly
            ({[Examples.originUrl := tempEnabled]} : gmap string disabledReason)).
  { apply map_Forall_singleton. right. by right. }
  split; [exact H|].
  apply (toggle_keeps_writtenOnly Examples.originUrl
           (inr {| Disabled := true |})
           (Examples.director {[Examples.originUrl := tempEnabled]} ∅)).
  exact H.
Defined.

(** X5. Repeating a request that just succeeded is rejected and changes
    nothing: disable after disable, enable after enable. *)
Theorem toggle_repeat_rejected serverUrl disableRequested g :
  writtenOnly (disabledServers g) →
  (toggle serverUrl disableRequested g).2 = success →
  (toggle serverUrl disableRequested
     (toggle serverUrl disableRequested g).1).1
    = (toggle serverUrl disableRequested g).1
  ∧ isFailure
      (toggle serverUrl disableRequested
         (toggle serverUrl disableRequested g).1).2.
Proof.
  intros Hw Hok.
  assert (Hknown : ∀ r, disabledServers g !! serverUrl = Some r →
                        writtenReason r).
  { intros r Hr. exact (Hw serverUrl r Hr). }
  apply toggle_success_inv in Hok as (Hne & req & [= <-] & Hdis & Hentry).
  revert Hdis Hentry Hknown.
  unfold toggle, handleDisableServerToggle, isServerDisabled, writtenReason.
  rewrite (serverUrl_nonempty _ Hne). cbn [Disabled].
  destruct disableRequested;
    destruct (disabledServers g !! serverUrl) as [[]|] eqn:Hm;
    cbn; try case_decide; cbn; intros Hdis Hentry Hknown;
    try discriminate Hdis;
    try (by destruct (Hentry eq_refl));
    try (by destruct (Hknown _ eq_refl) as [?|[?|?]]);
    repeat first [ progress cbn
                 | rewrite lookup_insert_eq
                 | rewrite lookup_delete_eq
                 | case_decide; try discriminate ];
    try done;
    (split; [done | eexists; reflexivity]).
Qed.

Lemma toggle_repeat_rejected_witness :
  writtenOnly (∅ : gmap string disabledReason)
  ∧ (toggle Examples.originUrl true (Examples.director ∅ ∅)).2 = success
  ∧ isFailure
      (toggle Examples.originUrl true
         (toggle Examples.originUrl true (Examples.director ∅ ∅)).1).2.
Proof.
  split; [apply map_Forall_empty|]. split; [reflexivity|].
  apply (toggle_repeat_rejected Examples.originUrl true (Examples.director ∅ ∅));
    [apply map_Forall_empty | reflexivity].
Defined.

(** X6. Disabling a server that has no override and is not statically filtered
    and enabling it again brings the registry back to the state it started
    from: the temporary entry is removed, not kept. *)
Theorem toggle_disable_enable_round_trip serverUrl g :
  serverUrl ≠ "" →
  disabledServers g !! serverUrl = None →
  serverUrl ∉ staticFilter g →
  (toggle serverUrl true g).2 = success
  ∧ disabledServers (toggle serverUrl true g).1 !! serverUrl
    = Some tempDisabled
  ∧ toggle serverUrl false (toggle serverUrl true g).1 = (g, success).
Proof.
  intros Hne Hm Hs.
  assert (Hdis : toggle serverUrl true g =
    (setDisabledServers (<[serverUrl := tempDisabled]> (disabledServers g)) g,
     success)).
  { unfold toggle, handleDisableServerToggle, isServerDisabled.
    rewrite (serverUrl_nonempty _ Hne), Hm. cbn [Disabled].
    by rewrite decide_False by done. }
  rewrite Hdis. cbn [fst snd]. split; [done|].
  split; [apply lookup_insert_eq|].
  unfold toggle, handleDisableServerToggle, isServerDisabled.
  rewrite (serverUrl_nonempty _ Hne). cbn.
  rewrite lookup_insert_eq. cbn.
  rewrite delete_insert_id by done.
  by destruct g.
Qed.

Lemma toggle_disable_enable_round_trip_witness :
  Examples.originUrl ≠ ""
  ∧ disabledServers (Examples.director ∅ ∅) !! Examples.originUrl = None
  ∧ (Examples.originUrl ∉ staticFilter (Examples.director ∅ ∅))
  ∧ toggle Examples.originUrl false
      (toggle Examples.originUrl true (Examples.director ∅ ∅)).1
    = (Examples.director ∅ ∅, success).
Proof.
  split; [discriminate|]. split; [reflexivity|]. split; [set_solver|].
  apply (toggle_disable_enable_round_trip Examples.originUrl
           (Examples.director ∅ ∅)); [discriminate | reflexivity | set_solver].
Defined.

End OverrideRegistryMore.

(** ** Server listing after a toggle *)

Section ListingMore.

Import GoStrings Director.

Implicit Types (g : Globals) (serverUrl : string).

(** An entry of the listing depends on the state only through the health
    record of the server and the availability of its name. *)
Lemma serverResponse_ext g g' server :
  healthTestUtils g' = healthTestUtils g →
  isServerDisabled g' (Name (ServerAd_ server))
    = isServerDisabled g (Name (ServerAd_ server)) →
  serverResponse g' server = serverResponse g server.
Proof. intros Hh Hd. unfold serverResponse. by rewrite Hh, Hd. Qed.

Lemma serverResponse_availability g server :
  res_Name (serverResponse g server) = Name (ServerAd_ server)
  ∧ (res_Filtered (serverResponse g server),
     res_FilteredType (serverResponse g server))
    = isServerDisabled g (Name (ServerAd_ server)).
Proof.
  unfold serverResponse.
  by destruct (isServerDisabled g (Name (ServerAd_ server))).
Qed.

Lemma listAdvertisement_after_toggle serverUrl bind g types :
  listAdvertisement (handleDisableServerToggle serverUrl bind g).1 types
  = listAdvertisement g types.
Proof.
  destruct (toggle_frame_globals serverUrl bind g) as (_ & _ & Hads).
  unfold listAdvertisement. by rewrite Hads.
Qed.

(** The listing is a single response whose entries are the entries of the
    selected advertisements. *)
Lemma listServers_listed bind g :
  ∃ servers,
    listed (listServers bind g) = List.map (serverResponse g) servers
    ∧ ∀ server, server ∈ servers → server ∈ serverAds g.
Proof.
  assert (Hsub : ∀ types server,
            server ∈ listAdvertisement g types → server ∈ serverAds g).
  { intros types server. unfold listAdvertisement.
    rewrite !list_elem_of_In. intros H. by apply List.filter_In in H as [? _]. }
  unfold listServers. destruct bind as [e|queryParams];
    [exists []; split; [done | by intros ? ?%elem_of_nil]|].
  destruct (negb (String.eqb (ServerType_ queryParams) "")).
  - destruct (negb (EqualFold _ _) && negb (EqualFold _ _));
      [exists []; split; [done | by intros ? ?%elem_of_nil]|].
    eexists. split; [reflexivity | apply Hsub].
  - eexists. split; [reflexivity | apply Hsub].
Qed.

(** X7. After a successful disable request for [serverUrl], every listing
    shows each server of that name as filtered, with filter type
    [tempDisabled] or [permDisabeld]. *)
Theorem listing_shows_disabled serverUrl g bind :
  (toggle serverUrl true g).2 = success →
  Forall
    (fun r =>
       res_Name r = serverUrl →
       res_Filtered r = true
       ∧ (res_FilteredType r = tempDisabled
          ∨ res_FilteredType r = permDisabeld))
    (listed (listServers bind (toggle serverUrl true g).1)).
Proof.
  intros Hok.
  assert (Hav : ∃ r, isServerDisabled (toggle serverUrl true g).1 serverUrl
                     = (true, r) ∧ (r = tempDisabled ∨ r = permDisabeld)).
  { apply toggle_success_inv in Hok as (Hne & req & [= <-] & Hdis & _).
    revert Hdis.
    unfold toggle, handleDisableServerToggle, isServerDisabled.
    rewrite (serverUrl_nonempty _ Hne). cbn [Disabled].
    destruct (disabledServers g !! serverUrl) as [[]|] eqn:Hm;
      cbn; repeat (case_decide; try discriminate); cbn;
      intros Hdis; try discriminate Hdis;
      rewrite lookup_insert_eq; eexists; split; try reflexivity; auto. }
  destruct Hav as (r & Hav & Hr).
  destruct (listServers_listed bind (toggle serverUrl true g).1)
    as (servers & -> & _).
  apply Forall_map, Forall_forall. intros server _ Hname.
  destruct (serverResponse_availability (toggle serverUrl true g).1 server)
    as [Hn Hf].
  rewrite Hn in Hname. rewrite Hname, Hav in Hf.
  by injection Hf as -> ->.
Qed.

Lemma listing_shows_disabled_witness :
  let g := Examples.director ∅ ∅ in
  (toggle "origin-1" true g).2 = success
  ∧ Forall
      (fun r =>
         res_Name r = "origin-1" →
         res_Filtered r = true
         ∧ (res_FilteredType r = tempDisabled
            ∨ res_FilteredType r = permDisabeld))
      (listed (listServers (inr {| ServerType_ := "" |})
                 (toggle "origin-1" true g).1)).
Proof.
  cbv zeta. split; [reflexivity|].
  apply (listing_shows_disabled "origin-1" (Examples.director ∅ ∅)
           (inr {| ServerType_ := "" |})).
  reflexivity.
Defined.

(** X8. A toggle request, accepted or not, for a name that no advertised
    server carries leaves every listing as it was. *)
Theorem listing_unaffected_by_other_names serverUrl bind g query :
  (∀ server, server ∈ serverAds g → Name (ServerAd_ server) ≠ serverUrl) →
  listServers query (handleDisableServerToggle serverUrl bind g).1
  = listServers query g.
Proof.
  intros Hnames.
  destruct (toggle_frame_globals serverUrl bind g) as (_ & Hh & Hads).
  assert (Hmap : ∀ types,
            List.map (serverResponse (handleDisableServerToggle serverUrl bind g).1)
              (listAdvertisement g types)
            = List.map (serverResponse g) (listAdvertisement g types)).
  { intros types. apply List.map_ext_in. intros server Hin.
    apply serverResponse_ext; [done|].
    apply toggle_other_availability, Hnames.
    unfold listAdvertisement in Hin. apply List.filter_In in Hin as [Hin _].
    by apply list_elem_of_In. }
  unfold listServers. destruct query as [e|queryParams]; [done|].
  rewrite !listAdvertisement_after_toggle.
  destruct (negb (String.eqb (ServerType_ queryParams) ""));
    [destruct (negb (EqualFold _ _) && negb (EqualFold _ _)); [done|]|];
    by rewrite Hmap.
Qed.

Lemma listing_unaffected_by_other_names_witness :
  let g := Examples.director ∅ ∅ in
  (∀ server, server ∈ serverAds g →
             Name (ServerAd_ server) ≠ Examples.originUrl)
  ∧ listServers (inr {| ServerType_ := "" |})
      (handleDisableServerToggle Examples.originUrl
         (inr {| Disabled := true |}) g).1
    = listServers (inr {| ServerType_ := "" |}) g.
Proof.
  cbv zeta.
  assert (H : ∀ server, server ∈ serverAds (Examples.director ∅ ∅) →
                        Name (ServerAd_ server) ≠ Examples.originUrl).
  { intros server Hin. cbn in Hin.
    repeat (apply elem_of_cons in Hin as [->|Hin]; [discriminate|]).
    by apply elem_of_nil in Hin. }
  split; [exact H|].
  apply (listing_unaffected_by_other_names Examples.originUrl
           (inr {| Disabled := true |}) (Examples.director ∅ ∅)
           (inr {| ServerType_ := "" |})).
  exact H.
Defined.

End ListingMore.

(** ** Object availability: responses and calls of [queryOrigins] *)

Section ObjectAvailabilityMore.

Import GoStrings GoPath Director.

Implicit Types (Query : string → Z → Z → QueryResult) (pathParam : string).

Lemma path_accepted pathParam :
  Clean pathParam ≠ "/" →
  String.eqb (Clean pathParam) "" || HasSuffix (Clean pathParam) "/" = false.
Proof.
  intros Hroot.
  destruct (String.eqb _ _ || HasSuffix _ _) eqn:E; [|done].
  by apply path_check_rejects_only_root in E.
Qed.

(** X9. The handler answers with the path error exactly when the cleaned path
    parameter is the root, whatever the query parameters and the state of
    the federation. *)
Theorem queryOrigins_path_rejected_iff Query pathParam bind :
  queryOrigins Query pathParam bind = pathRejected ↔ Clean pathParam = "/".
Proof.
  unfold queryOrigins, pathRejected. split.
  - intros H. apply path_check_rejects_only_root.
    destruct (String.eqb _ _ || HasSuffix _ _); [done|].
    destruct bind as [e|queryParams]; [discriminate H|].
    destruct (Query _ _ _) as [[meta msg] [e|]].
    + repeat case_decide; try discriminate H.
      destruct (length meta <? 1)%nat; [discriminate H|].
      destruct (queryOriginsTail meta msg (Some e)). discriminate H.
    + destruct (queryOriginsTail meta msg None). discriminate H.
  - intros H. apply path_check_rejects_only_root in H. by rewrite H.
Qed.

(** X10. [Query] is called at most once, before anything else the handler does,
    with the cleaned path and the bound thresholds; it is not called when
    the cleaned path is the root or the query parameters do not bind. *)
Theorem queryOrigins_query_calls Query pathParam bind :
  let calls :=
    match bind with
    | inr queryParams =>
        if decide (Clean pathParam = "/") then []
        else [QueryCall (Clean pathParam) (MinResponses queryParams)
                (MaxResponses queryParams)]
    | inl _ => []
    end in
  ∃ rest,
    (queryOrigins Query pathParam bind).1 = calls ++ rest
    ∧ queryCalls rest = [].
Proof.
  cbv zeta. unfold queryOrigins.
  destruct (decide (Clean pathParam = "/")) as [Hroot|Hroot].
  - apply path_check_rejects_only_root in Hroot as ->.
    destruct bind; eexists; split; reflexivity.
  - rewrite (path_accepted _ Hroot).
    destruct bind as [e|queryParams]; [eexists; split; reflexivity|].
    destruct (Query _ _ _) as [[meta msg] [e|]].
    + repeat case_decide; try (eexists; split; reflexivity).
      destruct meta; cbn; eexists; split; reflexivity.
    + destruct meta; cbn; eexists; split; reflexivity.
Qed.

(** X11. Every error of [Query] other than [InsufficientResError] is answered by
    exactly one response that carries the error text: 404 for
    [NoPrefixMatchError], 400 for [ParameterError], and 500, after logging,
    for any other error. *)
Theorem queryOrigins_error_status Query pathParam queryParams meta msg e :
  Clean pathParam ≠ "/" →
  Query (Clean pathParam) (MinResponses queryParams) (MaxResponses queryParams)
    = (meta, msg, Some e) →
  e ≠ InsufficientResError →
  let failed code :=
    JSON code (SimpleBody {| Status := RespFailed; Msg := [ErrorVal e] |}) in
  queryOrigins Query pathParam (inr queryParams)
  = (QueryCall (Clean pathParam) (MinResponses queryParams)
       (MaxResponses queryParams)
     :: match e with
        | NoPrefixMatchError => [failed StatusNotFound]
        | ParameterError => [failed StatusBadRequest]
        | _ =>
            [LogErrorf (Clean pathParam) (MinResponses queryParams)
               (MaxResponses queryParams) e;
             failed StatusInternalServerError]
        end,
     Returned).
Proof.
  intros Hroot HQ He. cbv zeta. unfold queryOrigins.
  rewrite (path_accepted _ Hroot), HQ.
  by destruct e.
Qed.

Lemma queryOrigins_error_status_witness :
  Clean "/ns/object" ≠ "/"
  ∧ otherError "context deadline exceeded" ≠ InsufficientResError
  ∧ queryOrigins
      (fun _ _ _ => ([], "", Some (otherError "context deadline exceeded")))
      "/ns/object" (inr {| MinResponses := 1; MaxResponses := 2 |})
    = ([QueryCall "/ns/object" 1 2;
        LogErrorf "/ns/object" 1 2 (otherError "context deadline exceeded");
        JSON StatusInternalServerError
          (SimpleBody
             {| Status := RespFailed;
                Msg := [ErrorVal (otherError "context deadline exceeded")] |})],
       Returned).
Proof.
  split; [discriminate|]. split; [discriminate|].
  apply (queryOrigins_error_status
           (fun _ _ _ => ([], "", Some (otherError "context deadline exceeded")))
           "/ns/object" {| MinResponses := 1; MaxResponses := 2 |} [] ""
           (otherError "context deadline exceeded"));
    [discriminate | reflexivity | discriminate].
Defined.

(** X12. A query that ends without error and with at least one result is
    answered by exactly one 200 response with [OK] true that carries the
    message and all the results of [Query]. *)
Theorem queryOrigins_success Query pathParam queryParams meta msg :
  Clean pathParam ≠ "/" →
  Query (Clean pathParam) (MinResponses queryParams) (MaxResponses queryParams)
    = (meta, msg, None) →
  meta ≠ [] →
  queryOrigins Query pathParam (inr queryParams)
  = ([QueryCall (Clean pathParam) (MinResponses queryParams)
        (MaxResponses queryParams);
      JSON StatusOK
        (StatBody {| OK := true; Message := [Text msg]; Metadata := meta |})],
     Returned).
Proof.
  intros Hroot HQ Hmeta. unfold queryOrigins.
  rewrite (path_accepted _ Hroot), HQ.
  by destruct meta.
Qed.

Lemma queryOrigins_success_witness :
  Clean "/ns//object/." ≠ "/"
  ∧ [Examples.oneObject] ≠ []
  ∧ queryOrigins (fun _ _ _ => ([Examples.oneObject], "ok", None))
      "/ns//object/." (inr {| MinResponses := 1; MaxResponses := 1 |})
    = ([QueryCall "/ns/object" 1 1;
        JSON StatusOK
          (StatBody {| OK := true; Message := [Text "ok"];
                       Metadata := [Examples.oneObject] |})],
       Returned).
Proof.
  split; [discriminate|]. split; [discriminate|].
  apply (queryOrigins_success
           (fun _ _ _ => ([Examples.oneObject], "ok", None))
           "/ns//object/." {| MinResponses := 1; MaxResponses := 1 |}
           [Examples.oneObject] "ok");
    [discriminate | reflexivity | discriminate].
Defined.

(** X13. The handler never writes more than two responses; it writes two only
    when [Query] ends with [InsufficientResError] and at least one result;
    an invocation that returns has written at least one response, and one
    that panics has written none. *)
Theorem queryOrigins_response_count Query pathParam bind :
  let r := queryOrigins Query pathParam bind in
  (length (responseCodes r.1) ≤ 2)%nat
  ∧ (length (responseCodes r.1) = 2%nat →
     ∃ queryParams meta msg,
       bind = inr queryParams
       ∧ Query (Clean pathParam) (MinResponses queryParams)
           (MaxResponses queryParams)
         = (meta, msg, Some InsufficientResError)
       ∧ meta ≠ [])
  ∧ (r.2 = Returned → (1 ≤ length (responseCodes r.1))%nat)
  ∧ (r.2 = Panicked → responseCodes r.1 = []).
Proof.
  cbv zeta. unfold queryOrigins.
  destruct (String.eqb _ _ || HasSuffix _ _);
    [cbn; repeat split; (lia || discriminate)|].
  destruct bind as [e|queryParams];
    [cbn; repeat split; (lia || discriminate)|].
  destruct (Query _ _ _) as [[meta msg] [e|]] eqn:HQ.
  - repeat case_decide; subst;
      try (cbn; repeat split; (lia || discriminate)).
    destruct meta as [|m meta]; cbn;
      [repeat split; (lia || discriminate)|].
    split; [lia|]. split; [|split; [lia | discriminate]].
    intros _. by exists queryParams, (m :: meta), msg.
  - destruct meta as [|m meta]; cbn; repeat split; (lia || discriminate).
Qed.

End ObjectAvailabilityMore.

(** ** Origin API: bearer authorisation in front of the report endpoint *)

Section Authorisation.

Import GoStrings OriginUI.

Implicit Types (Verify : string → bool * option string) (authHeader : string).

Lemma HasPrefix_app prefix rest : HasPrefix (prefix +:+ rest) prefix = true.
Proof.
  unfold HasPrefix. induction prefix as [|a prefix IH].
  - change ("" +:+ rest) with rest. by destruct rest.
  - change (String a prefix +:+ rest) with (String a (prefix +:+ rest)).
    cbn. by destruct (ascii_dec a a).
Qed.

Lemma substring_all s : String.substring 0 (String.length s) s = s.
Proof. induction s as [|a s IH]; cbn; congruence. Qed.

Lemma TrimPrefix_app prefix rest : TrimPrefix (prefix +:+ rest) prefix = rest.
Proof.
  unfold TrimPrefix. rewrite HasPrefix_app.
  induction prefix as [|a prefix IH].
  - change ("" +:+ rest) with rest. cbn.
    rewrite Nat.sub_0_r. apply substring_all.
  - change (String a prefix +:+ rest) with (String a (prefix +:+ rest)).
    exact IH.
Qed.

Lemma HasPrefix_split s prefix :
  HasPrefix s prefix = true → s = prefix +:+ TrimPrefix s prefix.
Proof.
  intros H.
  assert (Hex : ∃ rest, s = prefix +:+ rest).
  { revert s H. unfold HasPrefix.
    induction prefix as [|a prefix IH]; intros s H; [by exists s|].
    destruct s as [|b s]; [discriminate|]. cbn in H.
    destruct (ascii_dec a b) as [->|]; [|discriminate].
    destruct (IH s H) as [rest ->]. by exists rest. }
  destruct Hex as [rest ->]. by rewrite TrimPrefix_app.
Qed.

(** The request is passed on exactly when the header is [Bearer ] followed
    by a token that the verifier accepts without error. *)
Lemma apiAuthHandler_Next Verify authHeader :
  Next ∈ apiAuthHandler Verify authHeader
  ↔ ∃ token, authHeader = "Bearer " +:+ token ∧ Verify token = (true, None).
Proof.
  unfold apiAuthHandler. split.
  - destruct (String.eqb authHeader "");
      [intros H; by apply list_elem_of_singleton in H|].
    destruct (HasPrefix authHeader "Bearer ") eqn:Hp; cbn [negb];
      [|intros H; by apply list_elem_of_singleton in H].
    apply HasPrefix_split in Hp.
    destruct (Verify (TrimPrefix authHeader "Bearer ")) as [valid [e|]] eqn:HV.
    + intros H. repeat (apply elem_of_cons in H as [H|H]; [discriminate|]).
      by apply elem_of_nil in H.
    + destruct valid; cbn [negb]; [intros _; eauto|].
      intros H. repeat (apply elem_of_cons in H as [H|H]; [discriminate|]).
      by apply elem_of_nil in H.
  - intros (token & -> & HV).
    change (String.eqb ("Bearer " +:+ token) "") with false. cbv iota.
    rewrite HasPrefix_app, TrimPrefix_app, HV. cbn.
    apply elem_of_cons. right. by apply list_elem_of_singleton.
Qed.

(** X14. Every request is either passed on or aborted with exactly one 401,
    never both; it is passed on exactly for an accepted bearer token; and
    the verifier is only ever given the text that follows [Bearer ] in the
    header. *)
Theorem apiAuthHandler_outcome Verify authHeader :
  let trace := apiAuthHandler Verify authHeader in
  (Next ∈ trace
   ↔ ∃ token, authHeader = "Bearer " +:+ token ∧ Verify token = (true, None))
  ∧ (Next ∉ trace
     ↔ ∃ before msg,
         trace = before ++ [AbortWithStatusJSON 401 msg]
         ∧ ∀ code text, AbortWithStatusJSON code text ∉ before)
  ∧ (∀ token, TokenVerified token ∈ trace → authHeader = "Bearer " +:+ token).
Proof.
  cbv zeta. split; [apply apiAuthHandler_Next|].
  assert (Hnone : ∀ (l : list AuthEvent),
            (∀ e, e ∈ l → ∀ code text, e ≠ AbortWithStatusJSON code text) →
            ∀ code text, AbortWithStatusJSON code text ∉ l).
  { intros l H code text Hin. by apply (H _ Hin code text). }
  unfold apiAuthHandler.
  destruct (String.eqb authHeader "").
  { split.
    - split; [intros _|intros _ H; by apply list_elem_of_singleton in H].
      exists [], "Authorization header is missing".
      split; [done | by intros ? ? ?%elem_of_nil].
    - intros token H. by apply list_elem_of_singleton in H. }
  destruct (HasPrefix authHeader "Bearer ") eqn:Hp; cbn [negb].
  2:{ split.
      - split; [intros _|intros _ H; by apply list_elem_of_singleton in H].
        exists [], "Authorization header is not Bearer type".
        split; [done | by intros ? ? ?%elem_of_nil].
      - intros token H. by apply list_elem_of_singleton in H. }
  apply HasPrefix_split in Hp.
  assert (Htok : ∀ (rest : list AuthEvent) token,
            (∀ t, TokenVerified t ∉ rest) →
            TokenVerified token
              ∈ TokenVerified (TrimPrefix authHeader "Bearer ") :: rest →
            authHeader = "Bearer " +:+ token).
  { intros rest token Hrest [H|H]%elem_of_cons; [by injection H as ->|].
    by apply Hrest in H. }
  assert (Hrest : ∀ (l : list AuthEvent),
            (∀ e, e ∈ l → ∀ t, e ≠ TokenVerified t) →
            ∀ t, TokenVerified t ∉ l).
  { intros l H t Hin. by apply (H _ Hin t). }
  destruct (Verify (TrimPrefix authHeader "Bearer ")) as [valid [e|]].
  - split.
    + split.
      * intros _. eexists [_; _], _. split; [reflexivity|].
        apply Hnone. intros ev Hev.
        repeat (apply elem_of_cons in Hev as [->|Hev]; [discriminate|]).
        by apply elem_of_nil in Hev.
      * intros _ H.
        repeat (apply elem_of_cons in H as [H|H]; [discriminate|]).
        by apply elem_of_nil in H.
    + intros token. apply Htok, Hrest. intros ev Hev.
      repeat (apply elem_of_cons in Hev as [->|Hev]; [discriminate|]).
      by apply elem_of_nil in Hev.
  - destruct valid; cbn [negb].
    + split.
      * split.
        -- intros H. destruct H. apply elem_of_cons. right.
           by apply list_elem_of_singleton.
        -- intros (before & msg & Heq & _) _.
           destruct before as [|a [|b [|c before]]]; discriminate Heq.
      * intros token. apply Htok, Hrest. intros ev Hev.
        repeat (apply elem_of_cons in Hev as [->|Hev]; [discriminate|]).
        by apply elem_of_nil in Hev.
    + split.
      * split.
        -- intros _. eexists [_; _], _. split; [reflexivity|].
           apply Hnone. intros ev Hev.
           repeat (apply elem_of_cons in Hev as [->|Hev]; [discriminate|]).
           by apply elem_of_nil in Hev.
        -- intros _ H.
           repeat (apply elem_of_cons in H as [H|H]; [discriminate|]).
           by apply elem_of_nil in H.
      * intros token. apply Htok, Hrest. intros ev Hev.
        repeat (apply elem_of_cons in Hev as [->|Hev]; [discriminate|]).
        by apply elem_of_nil in Hev.
Qed.

(** X15. A report that does not carry an accepted bearer token never reaches
    the report handler: the timer, the health entries and the event log
    stay as they were. *)
Theorem directorTestRoute_unauthenticated Verify authHeader bind g :
  ¬ (∃ token, authHeader = "Bearer " +:+ token ∧ Verify token = (true, None)) →
  (directorTestRoute Verify authHeader bind g).2 = Some g
  ∧ (Next ∉ (directorTestRoute Verify authHeader bind g).1).
Proof.
  intros Hd. unfold directorTestRoute.
  destruct (decide (Next ∈ apiAuthHandler Verify authHeader)) as [H|H];
    [by apply apiAuthHandler_Next in H | done].
Qed.

Lemma directorTestRoute_unauthenticated_witness :
  ¬ (∃ token, "Basic dXNlcjpwdw==" = "Bearer " +:+ token
              ∧ (fun _ : string => (true, @None string)) token = (true, None))
  ∧ (directorTestRoute (fun _ => (true, None)) "Basic dXNlcjpwdw=="
       (inr {| Status := "ok"; Message := ""; Timestamp := "" |})
       Examples.tenSecondsIn).2
    = Some Examples.tenSecondsIn.
Proof.
  assert (H : ¬ (∃ token, "Basic dXNlcjpwdw==" = "Bearer " +:+ token
                 ∧ (fun _ : string => (true, @None string)) token
                   = (true, None))).
  { intros (token & Heq & _). discriminate Heq. }
  split; [exact H|].
  apply (directorTestRoute_unauthenticated (fun _ => (true, None))
           "Basic dXNlcjpwdw=="
           (inr {| Status := "ok"; Message := ""; Timestamp := "" |})
           Examples.tenSecondsIn).
  exact H.
Defined.

(** A report with an accepted bearer token is handled by the report
    handler. *)
Theorem directorTestRoute_authenticated Verify token bind g :
  Verify token = (true, None) →
  directorTestRoute Verify ("Bearer " +:+ token) bind g
  = ([TokenVerified token; Next], directorTestResponse bind g).
Proof.
  intros HV. unfold directorTestRoute.
  assert (Htrace : apiAuthHandler Verify ("Bearer " +:+ token)
                   = [TokenVerified token; Next]).
  { unfold apiAuthHandler.
    change (String.eqb ("Bearer " +:+ token) "") with false. cbv iota.
    by rewrite HasPrefix_app, TrimPrefix_app, HV. }
  rewrite Htrace. rewrite decide_True; [done|].
  apply elem_of_cons. right. by apply list_elem_of_singleton.
Qed.

Lemma directorTestRoute_authenticated_witness :
  (fun t : string => (String.eqb t "secret", @None string)) "secret"
    = (true, None)
  ∧ directorTestRoute (fun t => (String.eqb t "secret", None))
      ("Bearer " +:+ "secret")
      (inr {| Status := "ok"; Message := ""; Timestamp := "" |})
      Examples.tenSecondsIn
    = ([TokenVerified "secret"; Next],
       directorTestResponse
         (inr {| Status := "ok"; Message := ""; Timestamp := "" |})
         Examples.tenSecondsIn).
Proof.
  split; [reflexivity|].
  apply (directorTestRoute_authenticated
           (fun t => (String.eqb t "secret", None)) "secret").
  reflexivity.
Defined.

End Authorisation.

(** ** Director heartbeat: reports, expiry and shutdown together *)

Section HeartbeatMore.

Import OriginUI.

Implicit Types (g : Globals) (dt : DirectorTest).

Local Ltac armed := split; [|split; [|split]].

Lemma timePasses_before_deadline g d t :
  armedFor d g → (now g ≤ t)%Z → (t < d)%Z →
  armedFor d (timePasses t g)
  ∧ now (timePasses t g) = t
  ∧ events (timePasses t g) = events g
  ∧ componentHealth (timePasses t g) = componentHealth g
  ∧ timeoutLoopStep (timePasses t g) = None.
Proof.
  intros (Ht & Hnow & Hloop & Hexit) Hle Hlt.
  unfold timePasses, armedFor, timeoutLoopStep. rewrite Ht.
  rewrite (proj2 (Z.ltb_ge t (now g))) by lia.
  rewrite (proj2 (Z.leb_gt d t)) by lia. cbn.
  rewrite Hloop, Hexit. cbn.
  split; [armed; (done || lia)|]. by repeat split.
Qed.

(** A bound report on an armed watchdog arms it a full duration from now;
    nothing it does is a timeout warning. *)
Lemma report_on_armed g d dt :
  armedFor d g →
  ∃ g',
    directorTestResponse (inr dt) g = Some g'
    ∧ armedFor (now g + directorTimeoutDuration) g'
    ∧ now g' = now g
    ∧ (Warningln timeoutMessage ∉ events g →
       Warningln timeoutMessage ∉ events g').
Proof.
  intros (Ht & Hnow & Hloop & Hexit).
  unfold directorTestResponse, resetDirectorTimeoutTimer, armedFor.
  rewrite Ht.
  pose proof directorTimeoutDuration_pos as Hpos.
  destruct (String.eqb (Status dt) "ok");
    [|destruct (String.eqb (Status dt) "error")];
    cbn; eexists; (split; [reflexivity|]); cbn;
    (split; [armed; (done || lia)|]); (split; [done|]);
    intros Hno Hin;
    repeat (apply elem_of_app in Hin as [Hin|Hin];
            [|apply list_elem_of_singleton in Hin; discriminate Hin]);
    done.
Qed.

(** X16. Reports that each arrive before the deadline set by the previous one
    keep the watchdog from ever expiring: the run handles every report, no
    timeout warning is logged, and the watchdog ends armed. *)
Theorem timely_reports_prevent_timeout reports : ∀ g d,
  armedFor d g →
  timely (now g) d reports →
  Warningln timeoutMessage ∉ events g →
  ∃ g' d',
    reportRun reports g = Some g'
    ∧ armedFor d' g'
    ∧ (Warningln timeoutMessage ∉ events g')
    ∧ d' = match last reports with
           | Some (t, _) => t + directorTimeoutDuration
           | None => d
           end.
Proof.
  induction reports as [|[t dt] reports IH]; intros g d Harmed Htimely Hno.
  - exists g, d. by cbn.
  - destruct Htimely as (Hle & Hlt & Hrest).
    destruct (timePasses_before_deadline g d t Harmed Hle Hlt)
      as (Harmed1 & Hnow1 & Hev1 & _ & Hstep).
    destruct (report_on_armed (timePasses t g) d dt Harmed1)
      as (g3 & Hresp & Harmed3 & Hnow3 & Hno3).
    rewrite Hnow1 in Harmed3.
    destruct (IH g3 (t + directorTimeoutDuration) Harmed3)
      as (g' & d' & Hrun & Harmed' & Hno' & Hd').
    { by rewrite Hnow3, Hnow1. }
    { apply Hno3. by rewrite Hev1. }
    exists g', d'. cbn [reportRun]. rewrite Hstep. cbn [default].
    rewrite Hresp. split; [exact Hrun|]. split; [exact Harmed'|].
    split; [exact Hno'|]. rewrite Hd'.
    destruct reports as [|[t2 dt2] reports]; [reflexivity|].
    rewrite (last_cons_cons (t, dt)).
    destruct (last ((t2, dt2) :: reports)) as [[? ?]|] eqn:E; [done|].
    by apply last_None in E.
Qed.

Lemma timely_reports_prevent_timeout_witness :
  let ok := {| Status := "ok"; Message := ""; Timestamp := "t" |} in
  let reports := [(20 * Second, ok); (45 * Second, ok); (70 * Second, ok)] in
  armedFor (30 * Second) Examples.started
  ∧ timely (now Examples.started) (30 * Second) reports
  ∧ (Warningln timeoutMessage ∉ events Examples.started)
  ∧ ∃ g' d',
      reportRun reports Examples.started = Some g'
      ∧ armedFor d' g'
      ∧ (Warningln timeoutMessage ∉ events g')
      ∧ d' = match last reports with
             | Some (t, _) => t + directorTimeoutDuration
             | None => 30 * Second
             end.
Proof.
  cbv zeta.
  assert (Harmed : armedFor (30 * Second) Examples.started).
  { armed; (reflexivity || (vm_compute; discriminate)). }
  assert (Htimely : timely (now Examples.started) (30 * Second)
            [(20 * Second, {| Status := "ok"; Message := ""; Timestamp := "t" |});
             (45 * Second, {| Status := "ok"; Message := ""; Timestamp := "t" |});
             (70 * Second, {| Status := "ok"; Message := ""; Timestamp := "t" |})]).
  { cbn. repeat (split; [first [reflexivity | vm_compute; discriminate]|]).
    exact I. }
  assert (Hno : Warningln timeoutMessage ∉ events Examples.started).
  { intros Hin. vm_compute in Hin.
    repeat (apply elem_of_cons in Hin as [Hin|Hin]; [discriminate|]).
    by apply elem_of_nil in Hin. }
  split; [exact Harmed|]. split; [exact Htimely|]. split; [exact Hno|].
  exact (timely_reports_prevent_timeout _ Examples.started (30 * Second)
           Harmed Htimely Hno).
Defined.

(** X17. A bound report handled after the deadline has passed but before the
    timeout loop has taken the expiry from the timer's channel wins: the
    reset drains the channel, so that expiry is never reported, and the
    watchdog is armed a full duration from the report. *)
Theorem report_suppresses_pending_expiry g d t dt :
  armedFor d g → (d ≤ t)%Z →
  directorTimeoutTimer (timePasses t g)
    = Some {| deadline := None; C := true |}
  ∧ ∃ g',
      directorTestResponse (inr dt) (timePasses t g) = Some g'
      ∧ armedFor (t + directorTimeoutDuration) g'
      ∧ timeoutLoopStep g' = None
      ∧ (Warningln timeoutMessage ∉ events g →
         Warningln timeoutMessage ∉ events g').
Proof.
  intros (Ht & Hnow & Hloop & Hexit) Hle.
  assert (Hfired : timePasses t g =
            {| now := t;
               directorTimeoutTimer := Some {| deadline := None; C := true |};
               timeoutLoop := true; exitLoop := false;
               componentHealth := componentHealth g;
               events := events g |}).
  { unfold timePasses. rewrite Ht, Hloop, Hexit.
    rewrite (proj2 (Z.ltb_ge t (now g))) by lia.
    by rewrite (proj2 (Z.leb_le d t)) by lia. }
  rewrite Hfired. split; [done|].
  pose proof directorTimeoutDuration_pos as Hpos.
  unfold directorTestResponse, resetDirectorTimeoutTimer, armedFor,
    timeoutLoopStep.
  destruct (String.eqb (Status dt) "ok");
    [|destruct (String.eqb (Status dt) "error")];
    cbn; eexists; (split; [reflexivity|]); cbn;
    (split; [armed; (done || lia)|]); (split; [done|]);
    intros Hno Hin;
    repeat (apply elem_of_app in Hin as [Hin|Hin];
            [|apply list_elem_of_singleton in Hin; discriminate Hin]);
    done.
Qed.

Lemma report_suppresses_pending_expiry_witness :
  armedFor (30 * Second) Examples.started
  ∧ (30 * Second ≤ 31 * Second)%Z
  ∧ ∃ g',
      directorTestResponse
        (inr {| Status := "ok"; Message := ""; Timestamp := "t" |})
        (timePasses (31 * Second) Examples.started) = Some g'
      ∧ armedFor (31 * Second + directorTimeoutDuration) g'
      ∧ timeoutLoopStep g' = None
      ∧ (Warningln timeoutMessage ∉ events Examples.started →
         Warningln timeoutMessage ∉ events g').
Proof.
  assert (Harmed : armedFor (30 * Second) Examples.started).
  { armed; (reflexivity || (vm_compute; discriminate)). }
  split; [exact Harmed|]. split; [vm_compute; discriminate|].
  apply (report_suppresses_pending_expiry Examples.started (30 * Second)
           (31 * Second) {| Status := "ok"; Message := ""; Timestamp := "t" |}
           Harmed).
  vm_compute. discriminate.
Defined.

(** The whole iteration of the timeout loop is the receive followed by the
    handling of the expiry. *)
Lemma timeoutLoopStep_parts g g1 :
  takeExpiry g = Some g1 → timeoutLoopStep g = Some (onTimerFired g1).
Proof.
  unfold takeExpiry, timeoutLoopStep.
  destruct (negb (timeoutLoop g)); [discriminate|].
  destruct (directorTimeoutTimer g) as [[d [|]]|]; try discriminate.
  by intros [= <-].
Qed.

(** X18. After a missed deadline the outcome of the next bound report depends
    on where the timeout loop stands.  A report handled after the loop has
    taken the expiry from the timer's channel and before it has re-armed
    the timer does not complete: the reset waits on the emptied channel and
    nothing is recorded.  Once the loop has recorded the director as
    critical and re-armed the timer, an [ok] report that arrives before the
    new deadline records the director as [ok] and arms the timer a full
    duration from the report. *)
Theorem report_recovers_after_timeout g d t1 t2 :
  armedFor d g → (d ≤ t1)%Z → (t1 ≤ t2)%Z →
  ∃ taken,
    takeExpiry (timePasses t1 g) = Some taken
    ∧ expiryTaken taken
    ∧ (∀ t dt, directorTestResponse (inr dt) (timePasses t taken) = None)
    ∧ componentHealth (onTimerFired (timePasses t2 taken)) !! "director"
      = Some (StatusCritical, timeoutMessage)
    ∧ armedFor (t2 + directorTimeoutDuration)
        (onTimerFired (timePasses t2 taken))
    ∧ ∀ t dt,
        (t2 ≤ t)%Z → (t < t2 + directorTimeoutDuration)%Z →
        Status dt = "ok" →
        ∃ g',
          directorTestResponse (inr dt)
            (timePasses t (onTimerFired (timePasses t2 taken))) = Some g'
          ∧ componentHealth g' !! "director"
            = Some (StatusOK, "Director timestamp: " +:+ Timestamp dt)
          ∧ armedFor (t + directorTimeoutDuration) g'.
Proof.
  intros (Ht & Hnow & Hloop & Hexit) Hle1 Hle2.
  assert (Hfired : timePasses t1 g =
            {| now := t1;
               directorTimeoutTimer := Some {| deadline := None; C := true |};
               timeoutLoop := true; exitLoop := false;
               componentHealth := componentHealth g;
               events := events g |}).
  { unfold timePasses. rewrite Ht, Hloop, Hexit.
    rewrite (proj2 (Z.ltb_ge t1 (now g))) by lia.
    by rewrite (proj2 (Z.leb_le d t1)) by lia. }
  rewrite Hfired. eexists. split; [reflexivity|]. split; [reflexivity|].
  split.
  { intros t dt. unfold timePasses, directorTestResponse,
      resetDirectorTimeoutTimer. cbn.
    by destruct (t <? t1)%Z. }
  assert (Hhandled : onTimerFired
            (timePasses t2
               (setTimer (Some {| deadline := None; C := false |})
                  {| now := t1;
                     directorTimeoutTimer :=
                       Some {| deadline := None; C := true |};
                     timeoutLoop := true; exitLoop := false;
                     componentHealth := componentHealth g;
                     events := events g |}))
          = {| now := t2;
               directorTimeoutTimer :=
                 Some {| deadline := Some (t2 + directorTimeoutDuration);
                         C := false |};
               timeoutLoop := true; exitLoop := false;
               componentHealth :=
                 <["director" := (StatusCritical, timeoutMessage)]>
                   (componentHealth g);
               events :=
                 events g ++
                   [Warningln timeoutMessage;
                    HealthSet t2 "director" StatusCritical timeoutMessage;
                    TimerArmed (t2 + directorTimeoutDuration)] |}).
  { unfold timePasses. cbn.
    rewrite (proj2 (Z.ltb_ge t2 t1)) by lia.
    unfold onTimerFired, arm, emit, setTimer. cbn.
    by rewrite <- !app_assoc. }
  rewrite Hhandled.
  pose proof directorTimeoutDuration_pos as Hpos.
  split; [apply lookup_insert_eq|].
  split; [armed; (done || (cbn; lia))|].
  intros t dt Hle Hlt Hok.
  unfold timePasses. cbn.
  rewrite (proj2 (Z.ltb_ge t t2)) by lia.
  rewrite (proj2 (Z.leb_gt (t2 + directorTimeoutDuration) t)) by lia.
  unfold directorTestResponse, resetDirectorTimeoutTimer. cbn.
  rewrite Hok. cbn. eexists. split; [reflexivity|].
  split; [apply lookup_insert_eq|].
  armed; try done. unfold emit. cbn [now].
  unfold directorTimeoutDuration, Second. lia.
Qed.

Lemma report_recovers_after_timeout_witness :
  armedFor (30 * Second) Examples.started
  ∧ (30 * Second ≤ 30 * Second)%Z
  ∧ (30 * Second ≤ 31 * Second)%Z
  ∧ ∃ taken,
      takeExpiry (timePasses (30 * Second) Examples.started) = Some taken
      ∧ expiryTaken taken
      ∧ (∀ t dt, directorTestResponse (inr dt) (timePasses t taken) = None)
      ∧ componentHealth (onTimerFired (timePasses (31 * Second) taken))
          !! "director"
        = Some (StatusCritical, timeoutMessage)
      ∧ armedFor (31 * Second + directorTimeoutDuration)
          (onTimerFired (timePasses (31 * Second) taken)).
Proof.
  assert (Harmed : armedFor (30 * Second) Examples.started).
  { armed; (reflexivity || (vm_compute; discriminate)). }
  split; [exact Harmed|]. split; [vm_compute; discriminate|].
  split; [vm_compute; discriminate|].
  destruct (report_recovers_after_timeout Examples.started (30 * Second)
              (30 * Second) (31 * Second) Harmed)
    as (taken & H1 & H2 & H3 & H4 & H5 & _);
    [vm_compute; discriminate | vm_compute; discriminate |].
  exists taken.
  split; [exact H1|]. split; [exact H2|]. split; [exact H3|].
  split; [exact H4 | exact H5].
Defined.

(** X19. Configuring the origin API for the first time records the director as
    [warning] and leaves the watchdog armed one duration from now with its
    loop running; with a nil router nothing is recorded or started. *)
Theorem ConfigureOriginAPI_starts_watchdog g :
  directorTimeoutTimer g = None →
  exitLoop g = false →
  (∃ g',
     ConfigureOriginAPI false g = (Some g', None)
     ∧ armedFor (now g + directorTimeoutDuration) g'
     ∧ componentHealth g' !! "director"
       = Some (StatusWarning,
               "Initializing origin, unknown status for director")
     ∧ now g' = now g)
  ∧ ConfigureOriginAPI true g
    = (Some g, Some "Origin configuration passed a nil pointer").
Proof.
  intros Ht Hexit. split; [|done].
  unfold ConfigureOriginAPI, resetDirectorTimeoutTimer, armedFor. cbn.
  rewrite Ht. eexists. split; [reflexivity|]. cbn.
  pose proof directorTimeoutDuration_pos.
  split; [armed; (done || lia)|].
  split; [apply lookup_insert_eq | done].
Qed.

Lemma ConfigureOriginAPI_starts_watchdog_witness :
  directorTimeoutTimer boot = None
  ∧ exitLoop boot = false
  ∧ ∃ g',
      ConfigureOriginAPI false boot = (Some g', None)
      ∧ armedFor (now boot + directorTimeoutDuration) g'
      ∧ componentHealth g' !! "director"
        = Some (StatusWarning,
                "Initializing origin, unknown status for director")
      ∧ now g' = now boot.
Proof.
  split; [reflexivity|]. split; [reflexivity|].
  apply (ConfigureOriginAPI_starts_watchdog boot); reflexivity.
Defined.

(** X20. After the exit signal, taken while the watchdog is armed, no expiry is
    ever handled: whatever time passes, the timer does not fire, the
    timeout loop ends at its next step, and the health entries stay as
    they were. *)
Theorem exit_signal_ends_watchdog g d t :
  armedFor d g → (now g ≤ t)%Z →
  nextExpiry (onExitSignal g) = None
  ∧ directorTimeoutTimer (timePasses t (onExitSignal g)) = None
  ∧ ∃ g',
      timeoutLoopStep (timePasses t (onExitSignal g)) = Some g'
      ∧ timeoutLoop g' = false
      ∧ componentHealth g' = componentHealth g
      ∧ timeoutLoopStep g' = None
      ∧ events g' =
          events g ++
            [Infoln "Gracefully stopping the director-health test timeout timer...";
             Infoln "Gracefully terminating the director-health test timeout loop..."].
Proof.
  intros (Ht & Hnow & Hloop & Hexit) Hle.
  split; [done|].
  unfold timePasses, onExitSignal, timeoutLoopStep. cbn.
  rewrite (proj2 (Z.ltb_ge t (now g))) by lia. cbn. rewrite Hloop. cbn.
  split; [done|]. eexists. split; [reflexivity|]. cbn.
  repeat split. by rewrite <- app_assoc.
Qed.

Lemma exit_signal_ends_watchdog_witness :
  armedFor (30 * Second) Examples.started
  ∧ (now Examples.started ≤ 45 * Second)%Z
  ∧ nextExpiry (onExitSignal Examples.started) = None
  ∧ directorTimeoutTimer
      (timePasses (45 * Second) (onExitSignal Examples.started)) = None.
Proof.
  assert (Harmed : armedFor (30 * Second) Examples.started).
  { armed; (reflexivity || (vm_compute; discriminate)). }
  split; [exact Harmed|]. split; [vm_compute; discriminate|].
  destruct (exit_signal_ends_watchdog Examples.started (30 * Second)
              (45 * Second) Harmed) as (H1 & H2 & _);
    [vm_compute; discriminate|].
  split; [exact H1 | exact H2].
Defined.

End HeartbeatMore.
